(** * LaPair: the IR graph, the type system, the symbol table, the
    control-flow graph and the dataflow engine, embedded from the Python
    sources under [lapair/core] and [lapair/analysis].

    Python objects compared by identity ([attr.s(eq=False)]) are addressed
    by a natural number, their identity; the attributes of an object live
    in a store indexed by identities.  Python sets are [gset]s, dicts are
    [gmap]s, lists are [list]s.  A Python exception is a value of [exn]
    returned in [Raise]. *)

From Stdlib Require Import ZArith Lia.
From stdpp Require Import base option list gmap sets strings pretty relations sorting.

#[local] Set Warnings "-clear-no-such-hyp,-register-all".

(** ** Exceptions *)

Inductive exn := ValueError | IndexError | KeyError.

Inductive result (A : Type) :=
| Ok (a : A)
| Raise (e : exn).
Arguments Ok {A} a.
Arguments Raise {A} e.

Definition is_ok {A} (r : result A) : bool :=
  match r with Ok _ => true | Raise _ => false end.

#[global] Instance exn_eq_dec : EqDecision exn.
Proof. solve_decision. Defined.

(** ** lapair/core/ir.py: values, instructions and the use-def edges *)

Module IRGraph.

(** Identity of a [Value] object (an [Instruction] is a [Value]). *)
Abbreviation oid := nat.

(** The attributes of a [Value] that the operand mutators read and write:
    [users] (every value) and [operands] (instructions). *)
Record Value := mkValue {
  users : gset oid;
  operands : list oid
}.

(** A freshly constructed value or instruction: [attr.Factory(set)] and
    [attr.Factory(list)]. *)
Definition fresh : Value := {| users := ∅; operands := [] |}.

#[global] Instance Value_inhabited : Inhabited Value := populate fresh.

(** The store: objects never touched by a mutator are fresh. *)
Abbreviation heap := (gmap oid Value).

Definition set_users (o : Value) (u : gset oid) : Value :=
  {| users := u; operands := operands o |}.
Definition set_operands (o : Value) (l : list oid) : Value :=
  {| users := users o; operands := l |}.

(** [Value.add_user]: [self.users.add(instr)]. *)
Definition add_user (h : heap) (self instr : oid) : heap :=
  <[self := set_users (h !!! self) ({[instr]} ∪ users (h !!! self))]> h.

(** [old_value.users.discard(self)]. *)
Definition discard_user (h : heap) (v instr : oid) : heap :=
  <[v := set_users (h !!! v) (users (h !!! v) ∖ {[instr]})]> h.

(** [Instruction.add_operand]: append, then register the user. *)
Definition add_operand (h : heap) (self value : oid) : heap :=
  let h1 := <[self := set_operands (h !!! self) (operands (h !!! self) ++ [value])]> h in
  add_user h1 value self.

(** One iteration of the loop of [replace_operand] at index [idx]: the
    operand is read from the list as it is now. *)
Definition replace_at (self old_value new_value : oid) (h : heap) (idx : nat) : heap :=
  match operands (h !!! self) !! idx with
  | Some operand =>
      if decide (operand = old_value) then
        let h1 := <[self := set_operands (h !!! self)
                              (<[idx := new_value]> (operands (h !!! self)))]> h in
        let h2 := discard_user h1 old_value self in
        add_user h2 new_value self
      else h
  | None => h
  end.

(** [Instruction.replace_operand]: [for idx, operand in enumerate(self.operands)];
    the loop has no [break]. *)
Definition replace_operand (h : heap) (self old_value new_value : oid) : heap :=
  foldl (replace_at self old_value new_value) h
        (seq 0 (length (operands (h !!! self)))).

(** [list.remove(x)]: delete the first item equal to [x], [ValueError]
    when there is none. *)
Fixpoint list_remove_first (x : oid) (l : list oid) : result (list oid) :=
  match l with
  | [] => Raise ValueError
  | y :: l' =>
      if decide (y = x) then Ok l'
      else match list_remove_first x l' with
           | Ok r => Ok (y :: r)
           | Raise e => Raise e
           end
  end.

(** [Instruction.remove_operand]: the exception of [list.remove] leaves
    before [users.discard] runs. *)
Definition remove_operand (h : heap) (self value : oid) : result heap :=
  match list_remove_first value (operands (h !!! self)) with
  | Ok l =>
      let h1 := <[self := set_operands (h !!! self) l]> h in
      Ok (discard_user h1 value self)
  | Raise e => Raise e
  end.

(** A call of one of the three operand mutators. *)
Inductive call :=
| AddOperand (self value : oid)
| RemoveOperand (self value : oid)
| ReplaceOperand (self old_value new_value : oid).

Definition exec (h : heap) (c : call) : result heap :=
  match c with
  | AddOperand i v => Ok (add_operand h i v)
  | RemoveOperand i v => remove_operand h i v
  | ReplaceOperand i o n => Ok (replace_operand h i o n)
  end.

(** A sequence of calls; a call that raises changes nothing and the
    caller goes on. *)
Definition run (h : heap) (cs : list call) : heap :=
  foldl (λ h c, match exec h c with Ok h' => h' | Raise _ => h end) h cs.

(** Invariant I1. *)
Definition use_def (h : heap) : Prop :=
  ∀ i v : oid, v ∈ operands (h !!! i) ↔ i ∈ users (h !!! v).

(** What the specification says of [replace_operand]: only the first
    occurrence is swapped. *)
Fixpoint replace_first_occurrence (old_value new_value : oid) (l : list oid) : list oid :=
  match l with
  | [] => []
  | y :: l' =>
      if decide (y = old_value) then new_value :: l'
      else y :: replace_first_occurrence old_value new_value l'
  end.

(** What the code does: every occurrence is swapped. *)
Definition replace_all (old_value new_value : oid) (l : list oid) : list oid :=
  (λ x, if decide (x = old_value) then new_value else x) <$> l.

End IRGraph.

(** ** lapair/core/ir.py: basic blocks and the CFG edges *)

Module Blocks.

(** Identity of a [BasicBlock] object. *)
Abbreviation bid := nat.

(** The two neighbour sets of a [BasicBlock]. *)
Record BasicBlock := mkBasicBlock {
  predecessors : gset bid;
  successors : gset bid
}.

(** A freshly constructed block: both sets from [attr.Factory(set)]. *)
Definition fresh : BasicBlock := {| predecessors := ∅; successors := ∅ |}.

#[global] Instance BasicBlock_inhabited : Inhabited BasicBlock := populate fresh.

Abbreviation store := (gmap bid BasicBlock).

Definition set_predecessors (b : BasicBlock) (s : gset bid) : BasicBlock :=
  {| predecessors := s; successors := successors b |}.
Definition set_successors (b : BasicBlock) (s : gset bid) : BasicBlock :=
  {| predecessors := predecessors b; successors := s |}.

(** [self.predecessors.add(pred); pred.successors.add(self)]: the second
    statement reads the store the first one left, [pred] may be [self]. *)
Definition add_predecessor (h : store) (self pred : bid) : store :=
  let h1 := <[self := set_predecessors (h !!! self) ({[pred]} ∪ predecessors (h !!! self))]> h in
  <[pred := set_successors (h1 !!! pred) ({[self]} ∪ successors (h1 !!! pred))]> h1.

(** [self.successors.add(succ); succ.predecessors.add(self)]. *)
Definition add_successor (h : store) (self succ : bid) : store :=
  let h1 := <[self := set_successors (h !!! self) ({[succ]} ∪ successors (h !!! self))]> h in
  <[succ := set_predecessors (h1 !!! succ) ({[self]} ∪ predecessors (h1 !!! succ))]> h1.

(** [self.predecessors.discard(pred); pred.successors.discard(self)]. *)
Definition remove_predecessor (h : store) (self pred : bid) : store :=
  let h1 := <[self := set_predecessors (h !!! self) (predecessors (h !!! self) ∖ {[pred]})]> h in
  <[pred := set_successors (h1 !!! pred) (successors (h1 !!! pred) ∖ {[self]})]> h1.

(** [self.successors.discard(succ); succ.predecessors.discard(self)]. *)
Definition remove_successor (h : store) (self succ : bid) : store :=
  let h1 := <[self := set_successors (h !!! self) (successors (h !!! self) ∖ {[succ]})]> h in
  <[succ := set_predecessors (h1 !!! succ) (predecessors (h1 !!! succ) ∖ {[self]})]> h1.

(** A call of one of the four edge mutators. *)
Inductive call :=
| AddPredecessor (self pred : bid)
| AddSuccessor (self succ : bid)
| RemovePredecessor (self pred : bid)
| RemoveSuccessor (self succ : bid).

Definition exec (h : store) (c : call) : store :=
  match c with
  | AddPredecessor a p => add_predecessor h a p
  | AddSuccessor a s => add_successor h a s
  | RemovePredecessor a p => remove_predecessor h a p
  | RemoveSuccessor a s => remove_successor h a s
  end.

Definition run (h : store) (cs : list call) : store := foldl exec h cs.

(** Invariant I2. *)
Definition cfg_symmetric (h : store) : Prop :=
  ∀ a b : bid, b ∈ successors (h !!! a) ↔ a ∈ predecessors (h !!! b).

End Blocks.

(** ** lapair/core/types.py: types and the type system *)

Module Types.

(** The type classes of [types.py], each with the attributes its objects
    store.  [name] and [size] are stored by every object; the classes
    that compute them ([attr.ib(init=False)]) do so in the constructors
    below.  The ordered field dict of a struct is an association list. *)
Inductive Ty :=
| BaseType (name : string) (size : option Z)
| VoidType (name : string) (size : option Z)
| IntegerType (name : string) (size : option Z) (signed : bool)
| FloatType (name : string) (size : option Z)
| PointerType (pointee_type : Ty) (name : string) (size : option Z)
| ArrayType (element_type : Ty) (length : option Z) (name : string) (size : option Z)
| StructType (fields : list (string * Ty)) (name : string) (size : option Z)
| FunctionType (return_type : Ty) (parameter_types : list Ty) (name : string)
    (size : option Z).

Definition name (t : Ty) : string :=
  match t with
  | BaseType n _ | VoidType n _ | IntegerType n _ _ | FloatType n _
  | PointerType _ n _ | ArrayType _ _ n _ | StructType _ n _
  | FunctionType _ _ n _ => n
  end.

Definition size (t : Ty) : option Z :=
  match t with
  | BaseType _ s | VoidType _ s | IntegerType _ s _ | FloatType _ s
  | PointerType _ _ s | ArrayType _ _ _ s | StructType _ _ s
  | FunctionType _ _ _ s => s
  end.

(** [VoidType()]. *)
Definition new_VoidType : Ty := VoidType "void" None.

(** [IntegerType.create(size, signed)]. *)
Definition IntegerType_create (sz : Z) (signed : bool) : Ty :=
  IntegerType ((if signed then "i" else "u") +:+ pretty sz) (Some sz) signed.

(** [FloatType.create(size)]. *)
Definition FloatType_create (sz : Z) : Ty :=
  FloatType ("f" +:+ pretty sz) (Some sz).

(** [PointerType(pointee_type=p)]: the name is the pointee's name and a
    star, the size the default 64. *)
Definition new_PointerType (pointee : Ty) : Ty :=
  PointerType pointee (name pointee +:+ "*") (Some 64%Z).

(** [ArrayType(element_type=e, length=n)]. *)
Definition new_ArrayType (element : Ty) (length : option Z) : Ty :=
  ArrayType element length
    (name element +:+ "[" +:+ (match length with Some n => pretty n | None => "" end) +:+ "]")
    (match size element, length with
     | Some s, Some n => Some (s * n)%Z
     | _, _ => None
     end).

(** The loop of [StructType.__attrs_post_init__]: the sum of the field
    sizes, [None] as soon as one is unknown. *)
Fixpoint struct_size (total : Z) (fields : list (string * Ty)) : option Z :=
  match fields with
  | [] => Some total
  | (_, field_type) :: rest =>
      match size field_type with
      | None => None
      | Some s => struct_size (total + s) rest
      end
  end.

(** [StructType(name=n, fields=f)]. *)
Definition new_StructType (n : string) (fields : list (string * Ty)) : Ty :=
  StructType fields n (struct_size 0 fields).

(** [", ".join(names)]. *)
Fixpoint join_comma (names : list string) : string :=
  match names with
  | [] => ""
  | [n] => n
  | n :: rest => n +:+ ", " +:+ join_comma rest
  end.

(** [FunctionType(return_type=r, parameter_types=ps)]. *)
Definition new_FunctionType (ret : Ty) (params : list Ty) : Ty :=
  FunctionType ret params
    (name ret +:+ " (" +:+ join_comma (name <$> params) +:+ ")") None.

(** A type object: its identity and what it holds.  [is] compares
    [ident], [==] compares [value]. *)
Record TypeObj := mkTypeObj {
  ident : nat;
  value : Ty
}.

(** [TypeSystem]: the dict [types]; [next] stands for the allocator,
    every constructor call yields an object of a new identity. *)
Record TypeSystem := mkTypeSystem {
  types : gmap string TypeObj;
  next : nat
}.

(** A constructor call: the object and the type system with the
    allocator moved on. *)
Definition alloc (ts : TypeSystem) (t : Ty) : TypeObj * TypeSystem :=
  ({| ident := next ts; value := t |}, {| types := types ts; next := S (next ts) |}).

(** [register_type]: [self.types[type_.name] = type_]. *)
Definition register_type (ts : TypeSystem) (t : TypeObj) : TypeSystem :=
  {| types := <[name (value t) := t]> (types ts); next := next ts |}.

(** [get_type]: [self.types.get(name)]. *)
Definition get_type (ts : TypeSystem) (n : string) : option TypeObj :=
  types ts !! n.

Definition construct_and_register (ts : TypeSystem) (t : Ty) : TypeObj * TypeSystem :=
  let '(o, ts1) := alloc ts t in (o, register_type ts1 o).

Definition create_pointer_type (ts : TypeSystem) (pointee : TypeObj) :=
  construct_and_register ts (new_PointerType (value pointee)).

Definition create_array_type (ts : TypeSystem) (element : TypeObj) (length : option Z) :=
  construct_and_register ts (new_ArrayType (value element) length).

Definition create_struct_type (ts : TypeSystem) (n : string)
    (fields : list (string * TypeObj)) :=
  construct_and_register ts (new_StructType n (prod_map id value <$> fields)).

Definition create_function_type (ts : TypeSystem) (ret : TypeObj) (params : list TypeObj) :=
  construct_and_register ts (new_FunctionType (value ret) (value <$> params)).

(** [_initialize_builtin_types]. *)
Definition builtin_types : list Ty :=
  new_VoidType ::
  (mjoin ((λ sz, [IntegerType_create sz true; IntegerType_create sz false])
            <$> [8; 16; 32; 64]%Z))
  ++ (FloatType_create <$> [32; 64]%Z).

(** [TypeSystem()]. *)
Definition new_TypeSystem : TypeSystem :=
  foldl (λ ts t, (construct_and_register ts t).2) {| types := ∅; next := 0 |} builtin_types.

(** A call of one of the four factory methods. *)
Inductive factory_call :=
| CreatePointer (pointee : TypeObj)
| CreateArray (element : TypeObj) (length : option Z)
| CreateStruct (n : string) (fields : list (string * TypeObj))
| CreateFunction (ret : TypeObj) (params : list TypeObj).

Definition factory (ts : TypeSystem) (c : factory_call) : TypeObj * TypeSystem :=
  match c with
  | CreatePointer p => create_pointer_type ts p
  | CreateArray e n => create_array_type ts e n
  | CreateStruct n fs => create_struct_type ts n fs
  | CreateFunction r ps => create_function_type ts r ps
  end.

(** The name of the type a factory call constructs. *)
Definition constructed_name (c : factory_call) : string :=
  match c with
  | CreatePointer p => name (new_PointerType (value p))
  | CreateArray e n => name (new_ArrayType (value e) n)
  | CreateStruct n fs => n
  | CreateFunction r ps => name (new_FunctionType (value r) (value <$> ps))
  end.

(** A sequence of factory calls on one type system. *)
Definition factories (ts : TypeSystem) (cs : list factory_call) : TypeSystem :=
  foldl (λ ts c, (factory ts c).2) ts cs.

End Types.

(** ** lapair/core/symbol.py: symbols, scopes and the symbol table *)

Module Symbols.

(** Identities of [Scope] and [Symbol] objects. *)
Abbreviation scope_id := nat.
Abbreviation symbol_id := nat.

Record Symbol := mkSymbol {
  sym_name : string;
  sym_type : Types.Ty;
  is_global : bool;
  is_constant : bool;
  is_defined : bool;
  scope : option scope_id
}.

Record Scope := mkScope {
  name : string;
  parent : option scope_id;
  children : list scope_id;
  symbols : gmap string symbol_id
}.

(** [Scope(name=n, parent=p)]. *)
Definition new_Scope (n : string) (p : option scope_id) : Scope :=
  {| name := n; parent := p; children := []; symbols := ∅ |}.

#[global] Instance Scope_inhabited : Inhabited Scope := populate (new_Scope "" None).
#[global] Instance Symbol_inhabited : Inhabited Symbol :=
  populate (mkSymbol "" Types.new_VoidType false false false None).

(** The symbol table with the objects it reaches: the two stores, their
    allocators, and the attributes [global_scope] and [current_scope]. *)
Record SymbolTable := mkSymbolTable {
  scopes : gmap scope_id Scope;
  next_scope : nat;
  syms : gmap symbol_id Symbol;
  next_symbol : nat;
  global_scope : scope_id;
  current_scope : scope_id
}.

(** [SymbolTable()]. *)
Definition new_SymbolTable : SymbolTable :=
  {| scopes := {[ 0 := new_Scope "global" None ]}; next_scope := 1;
     syms := ∅; next_symbol := 0;
     global_scope := 0; current_scope := 0 |}.

(** [Scope.add_child_scope] from [enter_scope]: the child is built,
    appended to the children of the current scope, and made current. *)
Definition enter_scope (t : SymbolTable) (n : string) : SymbolTable :=
  let self := current_scope t in
  let child := next_scope t in
  let h1 := <[child := new_Scope n (Some self)]> (scopes t) in
  let sc := h1 !!! self in
  let h2 := <[self := {| name := name sc; parent := parent sc;
                         children := children sc ++ [child];
                         symbols := symbols sc |}]> h1 in
  {| scopes := h2; next_scope := S (next_scope t);
     syms := syms t; next_symbol := next_symbol t;
     global_scope := global_scope t; current_scope := child |}.

(** [exit_scope]: to the parent, unless there is none. *)
Definition exit_scope (t : SymbolTable) : SymbolTable :=
  match parent (scopes t !!! current_scope t) with
  | Some p =>
      {| scopes := scopes t; next_scope := next_scope t;
         syms := syms t; next_symbol := next_symbol t;
         global_scope := global_scope t; current_scope := p |}
  | None => t
  end.

(** [SymbolTable.add_symbol]: the [Symbol] is built with the current
    scope, and [__attrs_post_init__] calls [Scope.add_symbol], which
    binds the name in the scope and sets [symbol.scope]. *)
Definition add_symbol (t : SymbolTable) (n : string) (ty : Types.Ty)
    (glob const def : bool) : symbol_id * SymbolTable :=
  let self := current_scope t in
  let symbol := next_symbol t in
  let sc := scopes t !!! self in
  (symbol,
   {| scopes := <[self := {| name := name sc; parent := parent sc;
                             children := children sc;
                             symbols := <[n := symbol]> (symbols sc) |}]> (scopes t);
      next_scope := next_scope t;
      syms := <[symbol := mkSymbol n ty glob const def (Some self)]> (syms t);
      next_symbol := S (next_symbol t);
      global_scope := global_scope t; current_scope := current_scope t |}).

(** [Scope.lookup_symbol].  The recursion follows [parent]; [fuel]
    bounds its depth, the outer [None] is the bound being reached. *)
Fixpoint Scope_lookup_symbol (fuel : nat) (h : gmap scope_id Scope) (self : scope_id)
    (n : string) (recursive : bool) : option (option symbol_id) :=
  match fuel with
  | 0 => None
  | S fuel' =>
      let symbol := symbols (h !!! self) !! n in
      match symbol, recursive, parent (h !!! self) with
      | None, true, Some p => Scope_lookup_symbol fuel' h p n true
      | _, _, _ => Some symbol
      end
  end.

(** [SymbolTable.lookup_symbol]; the depth of a scope is below the number
    of scopes allocated. *)
Definition lookup_symbol (t : SymbolTable) (n : string) (current_scope_only : bool)
    : option (option symbol_id) :=
  Scope_lookup_symbol (next_scope t) (scopes t) (current_scope t) n (negb current_scope_only).

(** [clear_scope]: [self.current_scope.symbols.clear()]. *)
Definition clear_scope (t : SymbolTable) : SymbolTable :=
  let self := current_scope t in
  let sc := scopes t !!! self in
  {| scopes := <[self := {| name := name sc; parent := parent sc;
                            children := children sc; symbols := ∅ |}]> (scopes t);
     next_scope := next_scope t; syms := syms t; next_symbol := next_symbol t;
     global_scope := global_scope t; current_scope := current_scope t |}.

(** [reset]: a new global scope, made current. *)
Definition reset (t : SymbolTable) : SymbolTable :=
  let g := next_scope t in
  {| scopes := <[g := new_Scope "global" None]> (scopes t); next_scope := S g;
     syms := syms t; next_symbol := next_symbol t;
     global_scope := g; current_scope := g |}.

(** The calls that change a symbol table. *)
Inductive call :=
| EnterScope (n : string)
| ExitScope
| AddSymbol (n : string) (ty : Types.Ty) (glob const def : bool)
| ClearScope
| Reset.

Definition exec (t : SymbolTable) (c : call) : SymbolTable :=
  match c with
  | EnterScope n => enter_scope t n
  | ExitScope => exit_scope t
  | AddSymbol n ty g c d => (add_symbol t n ty g c d).2
  | ClearScope => clear_scope t
  | Reset => reset t
  end.

Definition run (cs : list call) : SymbolTable := foldl exec new_SymbolTable cs.

(** The innermost binding of [n] seen from scope [s]: the binding of [s]
    itself, or else the innermost binding seen from its parent. *)
Inductive innermost (h : gmap scope_id Scope) (n : string) : scope_id → option symbol_id → Prop :=
| innermost_here s sym :
    symbols (h !!! s) !! n = Some sym → innermost h n s (Some sym)
| innermost_root s :
    symbols (h !!! s) !! n = None → parent (h !!! s) = None → innermost h n s None
| innermost_up s p r :
    symbols (h !!! s) !! n = None → parent (h !!! s) = Some p →
    innermost h n p r → innermost h n s r.

End Symbols.

(** ** The IR as the control-flow graph and the analyses read it

    The analyses never write the IR.  They read, of an instruction, its
    identity, its class, its name and its operands; of an operand, its
    class, its name and, for a constant, its literal; of a block, its
    instructions and its successors. *)

Module IR.

Abbreviation oid := nat.
Abbreviation bid := nat.

(** The instruction classes of [ir.py]; [OtherInstruction] stands for
    the subclasses of [instructions.py]. *)
Inductive InstrClass :=
| Instruction_
| AddInstruction
| MulInstruction
| SubInstruction
| DivInstruction
| AssignInstruction
| OtherInstruction.

(** The payload of a [Constant], as far as [str()] tells values apart. *)
Inductive literal :=
| LNone
| LInt (z : Z)
| LBool (b : bool)
| LStr (s : string).

(** The class of a [Value] object. *)
Inductive ValueClass :=
| CValue
| CConstant (value : literal)
| CInstruction (cls : InstrClass).

(** A [Value] as an operand. *)
Record Value := mkValue {
  v_class : ValueClass;
  v_name : option string
}.

Record Instruction := mkInstruction {
  ident : oid;
  cls : InstrClass;
  name : option string;
  operands : list Value
}.

Record BasicBlock := mkBasicBlock {
  b_name : string;
  instructions : list Instruction;
  predecessors : gset bid;
  successors : gset bid
}.

#[global] Instance BasicBlock_inhabited : Inhabited BasicBlock :=
  populate (mkBasicBlock "" [] ∅ ∅).

(** A [Function]: its block list, and the block objects by identity. *)
Record Function := mkFunction {
  blocks : list bid;
  block_store : gmap bid BasicBlock
}.

(** Truthiness of an [Optional[str]]: [None] and the empty string are
    false. *)
Definition truthy (n : option string) : option string :=
  match n with
  | Some s => if decide (s = ""%string) then None else Some s
  | None => None
  end.

#[global] Instance InstrClass_eq_dec : EqDecision InstrClass.
Proof. solve_decision. Defined.
#[global] Instance literal_eq_dec : EqDecision literal.
Proof. solve_decision. Defined.
#[global] Instance ValueClass_eq_dec : EqDecision ValueClass.
Proof. solve_decision. Defined.
#[global] Instance Value_eq_dec : EqDecision Value.
Proof. solve_decision. Defined.

End IR.

(** ** lapair/analysis/control_flow.py *)

Module ControlFlow.
Import IR.

(** The dict [nodes] holds one node per block, so a node is named by the
    block it was made for. *)
Abbreviation nid := nat.

Record CFGNode := mkCFGNode {
  block : bid;
  successors : gset nid;
  predecessors : gset nid
}.

#[global] Instance CFGNode_inhabited : Inhabited CFGNode := populate (mkCFGNode 0 ∅ ∅).

Record ControlFlowGraph := mkCFG {
  function : Function;
  nodes : gmap bid CFGNode
}.

(** First loop of [build_cfg]: [self.nodes[block] = CFGNode(block=block)]. *)
Definition create_nodes (bs : list bid) : gmap bid CFGNode :=
  foldl (λ ns b, <[b := mkCFGNode b ∅ ∅]> ns) ∅ bs.

(** The body of the inner loop: [successor_node = self.nodes[successor]]
    raises [KeyError] for a successor that is not a block of the
    function; otherwise both nodes are linked. *)
Definition link (b : bid) (r : result (gmap bid CFGNode)) (successor : bid)
    : result (gmap bid CFGNode) :=
  match r with
  | Raise e => Raise e
  | Ok ns =>
      match ns !! successor with
      | None => Raise KeyError
      | Some _ =>
          let cfg_node := ns !!! b in
          let ns1 := <[b := mkCFGNode (block cfg_node) ({[successor]} ∪ successors cfg_node)
                                      (predecessors cfg_node)]> ns in
          let successor_node := ns1 !!! successor in
          Ok (<[successor := mkCFGNode (block successor_node) (successors successor_node)
                                       ({[b]} ∪ predecessors successor_node)]> ns1)
      end
  end.

(** Second loop of [build_cfg]. *)
Definition link_nodes (f : Function) (ns : gmap bid CFGNode) : result (gmap bid CFGNode) :=
  foldl (λ r b, foldl (link b) r (elements (IR.successors (block_store f !!! b))))
        (Ok ns) (blocks f).

(** [ControlFlowGraph(function=f)]. *)
Definition build_cfg (f : Function) : result ControlFlowGraph :=
  match link_nodes f (create_nodes (blocks f)) with
  | Ok ns => Ok {| function := f; nodes := ns |}
  | Raise e => Raise e
  end.

(** [get_nodes], as a set. *)
Definition get_nodes (cfg : ControlFlowGraph) : gset nid := dom (nodes cfg).

Section traverse.
(** The order in which Python iterates over a set. *)
Variable iter : gset nid → list nid.

(** The [while stack] loop of [traverse].  The stack is kept with its
    top first, so [stack.extend(l)] puts [l] reversed in front; [None]
    is [fuel] running out. *)
Fixpoint traverse_loop (ns : gmap bid CFGNode) (fuel : nat) (visited : gset nid)
    (traversal_order : list nid) (stack : list nid) : option (list nid) :=
  match fuel with
  | 0 => None
  | S fuel' =>
      match stack with
      | [] => Some traversal_order
      | node :: stack' =>
          if decide (node ∈ visited) then
            traverse_loop ns fuel' visited traversal_order stack'
          else
            let visited' := {[node]} ∪ visited in
            traverse_loop ns fuel' visited' (traversal_order ++ [node])
              (reverse (iter (successors (ns !!! node) ∖ visited')) ++ stack')
      end
  end.

(** Enough iterations for every graph: an iteration pops one entry, and
    at most one entry per edge is pushed besides the start. *)
Definition traverse_fuel (ns : gmap bid CFGNode) : nat :=
  2 + sum_list_with (λ n, size (successors (ns !!! n))) (elements (dom ns)).

(** [traverse(start_block)]. *)
Definition traverse (cfg : ControlFlowGraph) (start_block : option bid)
    : option (result (list nid)) :=
  let start :=
    match start_block with
    | Some b => Ok b
    | None =>
        match blocks (function cfg) with
        | b :: _ => Ok b
        | [] => Raise IndexError
        end
    end in
  match start with
  | Raise e => Some (Raise e)
  | Ok b =>
      match nodes cfg !! b with
      | None => Some (Raise KeyError)
      | Some _ =>
          Ok <$> traverse_loop (nodes cfg) (traverse_fuel (nodes cfg)) ∅ [] [b]
      end
  end.
End traverse.

(** The successor relation on nodes. *)
Definition edge (ns : gmap bid CFGNode) (a b : nid) : Prop := b ∈ successors (ns !!! a).

End ControlFlow.

(** ** lapair/analysis/data_flow.py *)

Module DataFlow.
Import IR ControlFlow.

(** *** Expressions *)

Record Expression := mkExpression {
  operator : string;
  expr_operands : list string
}.

#[global] Instance Expression_eq_dec : EqDecision Expression.
Proof. solve_decision. Defined.

#[global] Instance Expression_countable : Countable Expression.
Proof.
  refine (inj_countable' (λ e, (operator e, expr_operands e))
                         (λ p, mkExpression p.1 p.2) _).
  by intros [].
Defined.

(** [Expression.OPERATOR_MAP.get(instruction.__class__)]. *)
Definition OPERATOR_MAP (c : InstrClass) : option string :=
  match c with
  | AddInstruction => Some "add"%string
  | MulInstruction => Some "multiply"%string
  | AssignInstruction => Some "assign"%string
  | _ => None
  end.

(** [str(value)] inside the f-string. *)
Definition str (v : literal) : string :=
  match v with
  | LNone => "None"
  | LInt z => pretty z
  | LBool true => "True"
  | LBool false => "False"
  | LStr s => s
  end.

(** The loop over the operands: a named instruction gives its name, a
    constant gives [const_<value>], anything else leaves with [None]. *)
Fixpoint operand_names_loop (ops : list Value) (operand_names : list string)
    : option (list string) :=
  match ops with
  | [] => Some operand_names
  | operand :: rest =>
      match v_class operand, truthy (v_name operand) with
      | CInstruction _, Some n => operand_names_loop rest (operand_names ++ [n])
      | CConstant value, _ =>
          operand_names_loop rest (operand_names ++ ["const_" +:+ str value])
      | _, _ => None
      end
  end.

(** [sorted] on strings: insertion into an ordered list; strings are
    compared character by character. *)
Fixpoint insert_sorted (x : string) (l : list string) : list string :=
  match l with
  | [] => [x]
  | y :: l' => if String.leb x y then x :: l else y :: insert_sorted x l'
  end.

Definition sorted (l : list string) : list string := foldr insert_sorted [] l.

(** [Expression.from_instruction]. *)
Definition from_instruction (instruction : Instruction) : option Expression :=
  if decide (length (operands instruction) ≤ 1) then None
  else
    match OPERATOR_MAP (cls instruction) with
    | None => None
    | Some op =>
        match operand_names_loop (operands instruction) [] with
        | None => None
        | Some [] => None
        | Some operand_names => Some (mkExpression op (sorted operand_names))
        end
    end.

(** The token of an operand the code accepts. *)
Definition token (operand : Value) : option string :=
  match v_class operand, truthy (v_name operand) with
  | CInstruction _, Some n => Some n
  | CConstant value, _ => Some ("const_" +:+ str value)
  | _, _ => None
  end.

(** The token of an operand as the specification words it: a constant, or
    any value with a non-empty name. *)
Definition token_spec (operand : Value) : option string :=
  match v_class operand, truthy (v_name operand) with
  | CConstant value, _ => Some ("const_" +:+ str value)
  | _, Some n => Some n
  | _, None => None
  end.

(** [from_instruction] as the specification words it. *)
Definition from_instruction_spec (instruction : Instruction) : option Expression :=
  match OPERATOR_MAP (cls instruction) with
  | Some op =>
      if decide (2 ≤ length (operands instruction)
                 ∧ Forall (λ o, is_Some (token_spec o)) (operands instruction))
      then Some (mkExpression op (sorted (omap token_spec (operands instruction))))
      else None
  | None => None
  end.

(** *** The worklist engine *)

(** What a subclass of [DataFlowAnalysis] supplies.  [Aux] holds the
    further attributes of the analysis object that [flow_function] writes
    and [meet_operator] reads. *)
Record Analysis (Data Aux : Type) := mkAnalysis {
  is_forward : bool;
  initial_data : Data;
  initial_aux : Aux;
  flow_function : ControlFlowGraph → Aux → nid → Data → Data * Aux;
  meet_operator : ControlFlowGraph → Aux → list Data → Data
}.
Arguments is_forward {Data Aux} _.
Arguments initial_data {Data Aux} _.
Arguments initial_aux {Data Aux} _.
Arguments flow_function {Data Aux} _ _ _ _ _.
Arguments meet_operator {Data Aux} _ _ _ _.

(** The analysis object while [analyze] runs, with the local [worklist]. *)
Record state (Data Aux : Type) := mkState {
  in_sets : gmap nid Data;
  out_sets : gmap nid Data;
  aux : Aux;
  worklist : gset nid
}.
Arguments in_sets {Data Aux} _.
Arguments out_sets {Data Aux} _.
Arguments aux {Data Aux} _.
Arguments worklist {Data Aux} _.
Arguments mkState {Data Aux} _ _ _ _.

(** [node.block.instructions]. *)
Definition node_instructions (cfg : ControlFlowGraph) (node : nid) : list Instruction :=
  instructions (block_store (function cfg) !!! block (nodes cfg !!! node)).

Section engine.
Context {Data Aux : Type} `{EqDecision Data}.
Variable A : Analysis Data Aux.
Variable cfg : ControlFlowGraph.

(** [initialize] and [worklist = set(self.cfg.get_nodes())]. *)
Definition initialize : state Data Aux :=
  {| in_sets := gset_to_gmap (initial_data A) (get_nodes cfg);
     out_sets := gset_to_gmap (initial_data A) (get_nodes cfg);
     aux := initial_aux A;
     worklist := get_nodes cfg |}.

(** [self.out_sets[pred]]: every node has an entry after [initialize],
    and the neighbours of a node are nodes. *)
Definition entry (sets : gmap nid Data) (n : nid) : Data :=
  default (initial_data A) (sets !! n).

(** [[sets[p] for p in neighbors] if neighbors else [self.initial_data()]]. *)
Definition neighbor_sets (sets : gmap nid Data) (neighbors : gset nid) : list Data :=
  if decide (neighbors = ∅) then [initial_data A]
  else entry sets <$> elements neighbors.

(** [node = worklist.pop()], for the node the set gives. *)
Definition pop (s : state Data Aux) (node : nid) : state Data Aux :=
  {| in_sets := in_sets s; out_sets := out_sets s; aux := aux s;
     worklist := worklist s ∖ {[node]} |}.

(** The body of the [while worklist] loop after the pop. *)
Definition process (s : state Data Aux) (node : nid) : state Data Aux :=
  let nd := nodes cfg !!! node in
  if is_forward A then
    let meet_result :=
      meet_operator A cfg (aux s) (neighbor_sets (out_sets s) (predecessors nd)) in
    let old_out_set := entry (out_sets s) node in
    let new := flow_function A cfg (aux s) node meet_result in
    {| in_sets := <[node := meet_result]> (in_sets s);
       out_sets := <[node := new.1]> (out_sets s);
       aux := new.2;
       worklist := if decide (new.1 = old_out_set) then worklist s
                   else worklist s ∪ successors nd |}
  else
    let meet_result :=
      meet_operator A cfg (aux s) (neighbor_sets (in_sets s) (successors nd)) in
    let old_in_set := entry (in_sets s) node in
    let new := flow_function A cfg (aux s) node meet_result in
    {| in_sets := <[node := new.1]> (in_sets s);
       out_sets := <[node := meet_result]> (out_sets s);
       aux := new.2;
       worklist := if decide (new.1 = old_in_set) then worklist s
                   else worklist s ∪ predecessors nd |}.

(** One iteration of the loop: any node of the worklist may be the one
    popped. *)
Definition step (s s' : state Data Aux) : Prop :=
  ∃ node, node ∈ worklist s ∧ s' = process (pop s node) node.

(** The loop for a given order of pops. *)
Fixpoint run_schedule (sched : list nid) (s : state Data Aux) : option (state Data Aux) :=
  match sched with
  | [] => Some s
  | node :: rest =>
      if decide (node ∈ worklist s) then run_schedule rest (process (pop s node) node)
      else None
  end.
End engine.

(** *** Available expressions *)

(** [any(var in killed for var in expr.operands)]. *)
Definition uses_any (killed : gset string) (e : Expression) : Prop :=
  Exists (λ var, var ∈ killed) (expr_operands e).

#[global] Instance uses_any_dec killed e : Decision (uses_any killed e).
Proof. unfold uses_any. apply _. Defined.

(** First pass of [flow_function]: the names the block defines. *)
Definition block_killed (instrs : list Instruction) : gset string :=
  foldl (λ killed i, match truthy (name i) with
                     | Some n => {[n]} ∪ killed
                     | None => killed
                     end) ∅ instrs.

(** Second pass: the expressions the block computes are added. *)
Definition add_expressions (instrs : list Instruction) (out_set : gset Expression)
    : gset Expression :=
  foldl (λ out i, match from_instruction i with
                  | Some e => {[e]} ∪ out
                  | None => out
                  end) out_set instrs.

Definition ae_flow_function (cfg : ControlFlowGraph) (killed_vars : gmap nid (gset string))
    (node : nid) (in_set : gset Expression) : gset Expression * gmap nid (gset string) :=
  let killed := block_killed (node_instructions cfg node) in
  let out_set := filter (λ e, ¬ uses_any killed e) in_set in
  (add_expressions (node_instructions cfg node) out_set, <[node := killed]> killed_vars).

(** [all_killed_vars]: the union of the recorded entries of the nodes. *)
Definition all_killed_vars (cfg : ControlFlowGraph) (killed_vars : gmap nid (gset string))
    : gset string :=
  foldl (λ acc n, match killed_vars !! n with
                  | Some k => acc ∪ k
                  | None => acc
                  end) ∅ (elements (get_nodes cfg)).

Definition ae_meet_operator (cfg : ControlFlowGraph) (killed_vars : gmap nid (gset string))
    (sets : list (gset Expression)) : gset Expression :=
  match sets with
  | [] => ∅
  | [s] => s
  | s0 :: rest =>
      let result := foldl (λ r s, filter (λ e, e ∈ s) r) s0 rest in
      filter (λ e, ¬ uses_any (all_killed_vars cfg killed_vars) e) result
  end.

(** [AvailableExpressionsAnalysis]; [var_versions] is never read. *)
Definition AvailableExpressionsAnalysis : Analysis (gset Expression) (gmap nid (gset string)) :=
  {| is_forward := true;
     initial_data := ∅;
     initial_aux := ∅;
     flow_function := ae_flow_function;
     meet_operator := ae_meet_operator |}.

(** *** Reaching definitions and live variables *)

(** The two analyses inherit [initial_data], which returns the dict
    [{}], while their meets and flows build sets: an entry is the empty
    dict until the node is first processed. *)
Inductive pyset (T : Type) `{Countable T} :=
| EmptyDict
| PySet (s : gset T).
Arguments EmptyDict {T _ _}.
Arguments PySet {T _ _} s.

#[global] Instance pyset_eq_dec `{Countable T} : EqDecision (pyset T).
Proof. solve_decision. Defined.

(** The items an iteration over the value yields. *)
Definition contents `{Countable T} (d : pyset T) : gset T :=
  match d with
  | EmptyDict => ∅
  | PySet s => s
  end.

(** [result = set(); for data_set in sets: result.update(data_set)]. *)
Definition union_meet `{Countable T} (sets : list (pyset T)) : pyset T :=
  PySet (foldl (λ result data_set, result ∪ contents data_set) ∅ sets).

(** The loop of the reaching-definitions flow: [kill_set] and [gen_set]. *)
Definition rd_kill_gen (instrs : list Instruction) (out_set : gset (string * oid))
    : gset (string * oid) * gset (string * oid) :=
  foldl (λ kg i, match truthy (name i) with
                 | Some var_name =>
                     (kg.1 ∪ filter (λ d, d.1 = var_name) out_set,
                      kg.2 ∪ {[(var_name, ident i)]})
                 | None => kg
                 end) (∅, ∅) instrs.

Definition rd_flow_function (cfg : ControlFlowGraph) (a : unit) (node : nid)
    (in_set : pyset (string * oid)) : pyset (string * oid) * unit :=
  let out_set := contents in_set in
  let kg := rd_kill_gen (node_instructions cfg node) out_set in
  (PySet ((out_set ∖ kg.1) ∪ kg.2), a).

Definition ReachingDefinitionsAnalysis : Analysis (pyset (string * oid)) unit :=
  {| is_forward := true;
     initial_data := EmptyDict;
     initial_aux := tt;
     flow_function := rd_flow_function;
     meet_operator := λ _ _, union_meet |}.

(** [get_used_variables]. *)
Definition get_used_variables (instruction : Instruction) : gset string :=
  foldl (λ used operand, match truthy (v_name operand) with
                         | Some n => {[n]} ∪ used
                         | None => used
                         end) ∅ (operands instruction).

Definition lv_flow_function (cfg : ControlFlowGraph) (a : unit) (node : nid)
    (out_set : pyset string) : pyset string * unit :=
  (PySet (foldl (λ in_set i,
                   (match truthy (name i) with
                    | Some var_def => in_set ∖ {[var_def]}
                    | None => in_set
                    end) ∪ get_used_variables i)
                (contents out_set) (reverse (node_instructions cfg node))), a).

Definition LiveVariableAnalysis : Analysis (pyset string) unit :=
  {| is_forward := false;
     initial_data := EmptyDict;
     initial_aux := tt;
     flow_function := lv_flow_function;
     meet_operator := λ _ _, union_meet |}.

(** *** Constant propagation *)

Inductive status := TOP | CONST.

#[global] Instance status_eq_dec : EqDecision status.
Proof. solve_decision. Defined.

(** [out_set.get(name, in_set.get(name, TOP))]. *)
Definition operand_status (out_set in_set : gmap string status) (n : string) : status :=
  default (default TOP (in_set !! n)) (out_set !! n).

(** The [all_const] loop with its two [break]s. *)
Fixpoint all_const (out_set in_set : gmap string status) (ops : list Value) : bool :=
  match ops with
  | [] => true
  | operand :: rest =>
      match v_class operand with
      | CConstant _ => all_const out_set in_set rest
      | CInstruction _ =>
          match truthy (v_name operand) with
          | Some n =>
              if decide (operand_status out_set in_set n = CONST)
              then all_const out_set in_set rest else false
          | None => false
          end
      | CValue => false
      end
  end.

(** The body of the loop over the instructions of the block, on
    [(out_set, defined_vars)]. *)
Definition cp_instruction (in_set : gmap string status)
    (st : gmap string status * gset string) (i : Instruction)
    : gmap string status * gset string :=
  match truthy (name i) with
  | None => st
  | Some n =>
      let out_set := st.1 in
      let defined_vars := {[n]} ∪ st.2 in
      match operands i with
      | [operand] =>
          match v_class operand with
          | CConstant _ => (<[n := CONST]> out_set, defined_vars)
          | CInstruction _ =>
              match truthy (v_name operand) with
              | Some on => (<[n := operand_status out_set in_set on]> out_set, defined_vars)
              | None => (out_set, defined_vars)
              end
          | CValue => (out_set, defined_vars)
          end
      | [] => (<[n := TOP]> out_set, defined_vars)
      | ops =>
          (<[n := if all_const out_set in_set ops then CONST else TOP]> out_set, defined_vars)
      end
  end.

(** The final loop writes the entries of [in_set] for the variables not
    defined in the block over those of [out_set]. *)
Definition cp_flow_function (cfg : ControlFlowGraph) (a : unit) (node : nid)
    (in_set : gmap string status) : gmap string status * unit :=
  let st := foldl (cp_instruction in_set) (in_set, ∅) (node_instructions cfg node) in
  (filter (λ kv, kv.1 ∉ st.2) in_set ∪ st.1, a).

(** The value [meet_operator] gives a key. *)
Definition cp_meet_value (sets : list (gmap string status)) (key : string) : status :=
  let values := (λ s, default TOP (s !! key)) <$> sets in
  let first_value := default TOP (head values) in
  if decide (Forall (λ value, value = first_value) values) then first_value else TOP.

Definition cp_meet_operator (sets : list (gmap string status)) : gmap string status :=
  match sets with
  | [] => ∅
  | _ =>
      let all_keys : gset string := ⋃ (dom <$> sets) in
      map_imap (λ key _, Some (cp_meet_value sets key)) (gset_to_gmap () all_keys)
  end.

Definition ConstantPropagationAnalysis : Analysis (gmap string status) unit :=
  {| is_forward := true;
     initial_data := ∅;
     initial_aux := tt;
     flow_function := cp_flow_function;
     meet_operator := λ _ _, cp_meet_operator |}.

End DataFlow.

(** ** tests/analysis/test_available_expressions.py: the diamond of S3 *)

Module S3.
Import IR ControlFlow DataFlow.

Definition const_1 : Value := mkValue (CConstant (LInt 1)) None.
Definition const_2 : Value := mkValue (CConstant (LInt 2)) None.

(** [x = 1], [y = 2], [a = x + y], [b = x * y], [x = 2], [c = x + y]. *)
Definition inst_x : Instruction := mkInstruction 0 AssignInstruction (Some "x"%string) [const_1].
Definition inst_y : Instruction := mkInstruction 1 AssignInstruction (Some "y"%string) [const_2].

(** An instruction as an operand. *)
Definition as_operand (i : Instruction) : Value := mkValue (CInstruction (cls i)) (name i).

Definition inst_a : Instruction :=
  mkInstruction 2 AddInstruction (Some "a"%string) [as_operand inst_x; as_operand inst_y].
Definition inst_b : Instruction :=
  mkInstruction 3 MulInstruction (Some "b"%string) [as_operand inst_x; as_operand inst_y].
Definition inst_x2 : Instruction := mkInstruction 4 AssignInstruction (Some "x"%string) [const_2].
Definition inst_c : Instruction :=
  mkInstruction 5 AddInstruction (Some "c"%string) [as_operand inst_x2; as_operand inst_y].

(** The blocks [entry], [block1], [block2], [exit], with the edges the
    test sets. *)
Definition entry_block : bid := 0.
Definition block1 : bid := 1.
Definition block2 : bid := 2.
Definition exit_block : bid := 3.

Definition function : Function :=
  {| blocks := [entry_block; block1; block2; exit_block];
     block_store :=
       {[ entry_block := mkBasicBlock "entry" [inst_x; inst_y] ∅ {[block1; block2]};
          block1 := mkBasicBlock "block1" [inst_a; inst_b] {[entry_block]} {[exit_block]};
          block2 := mkBasicBlock "block2" [inst_x2; inst_c] {[entry_block]} {[exit_block]};
          exit_block := mkBasicBlock "exit" [] {[block1; block2]} ∅ ]} |}.

Definition add_expr : Expression := mkExpression "add" ["x"; "y"]%string.
Definition mul_expr : Expression := mkExpression "multiply" ["x"; "y"]%string.

(** [ControlFlowGraph(function=function)]. *)
Definition cfg : ControlFlowGraph :=
  {| ControlFlow.function := function;
     nodes := {[ entry_block := mkCFGNode entry_block {[block1; block2]} ∅;
                 block1 := mkCFGNode block1 {[exit_block]} {[entry_block]};
                 block2 := mkCFGNode block2 {[exit_block]} {[entry_block]};
                 exit_block := mkCFGNode exit_block ∅ {[block1; block2]} ]} |}.

End S3.

(** * Theorems *)

Module IRGraphFacts.
Import IRGraph.

(** Set equalities that need a case split on the removed element. *)
Ltac set_by_cases i :=
  apply set_eq; intros ?y; destruct (decide (y = i)); set_solver.

Lemma operands_add_user h v i o :
  operands (add_user h v i !!! o) = operands (h !!! o).
Proof.
  unfold add_user. destruct (decide (v = o)) as [->|Hne].
  - by rewrite lookup_total_insert_eq.
  - by rewrite lookup_total_insert_ne.
Qed.

Lemma users_add_user h v i o :
  users (add_user h v i !!! o) =
  if decide (o = v) then {[i]} ∪ users (h !!! v) else users (h !!! o).
Proof.
  unfold add_user. case_decide as Ho.
  - subst. by rewrite lookup_total_insert_eq.
  - by rewrite lookup_total_insert_ne.
Qed.

Lemma operands_discard_user h v i o :
  operands (discard_user h v i !!! o) = operands (h !!! o).
Proof.
  unfold discard_user. destruct (decide (v = o)) as [->|Hne].
  - by rewrite lookup_total_insert_eq.
  - by rewrite lookup_total_insert_ne.
Qed.

Lemma users_discard_user h v i o :
  users (discard_user h v i !!! o) =
  if decide (o = v) then users (h !!! v) ∖ {[i]} else users (h !!! o).
Proof.
  unfold discard_user. case_decide as Ho.
  - subst. by rewrite lookup_total_insert_eq.
  - by rewrite lookup_total_insert_ne.
Qed.

Lemma operands_set_operands (h : heap) i l o :
  operands (<[i := set_operands (h !!! i) l]> h !!! o) =
  if decide (o = i) then l else operands (h !!! o).
Proof.
  case_decide as Ho.
  - subst. by rewrite lookup_total_insert_eq.
  - by rewrite lookup_total_insert_ne.
Qed.

Lemma users_set_operands (h : heap) i l o :
  users (<[i := set_operands (h !!! i) l]> h !!! o) = users (h !!! o).
Proof.
  destruct (decide (i = o)) as [->|Hne].
  - by rewrite lookup_total_insert_eq.
  - by rewrite lookup_total_insert_ne.
Qed.

Lemma operands_add_operand h i v o :
  operands (add_operand h i v !!! o) =
  if decide (o = i) then operands (h !!! i) ++ [v] else operands (h !!! o).
Proof. unfold add_operand. by rewrite operands_add_user, operands_set_operands. Qed.

Lemma users_add_operand h i v o :
  users (add_operand h i v !!! o) =
  if decide (o = v) then {[i]} ∪ users (h !!! v) else users (h !!! o).
Proof.
  unfold add_operand. rewrite users_add_user.
  case_decide; by rewrite users_set_operands.
Qed.

(** [add_operand] keeps I1. *)
Lemma add_operand_use_def h i v : use_def h → use_def (add_operand h i v).
Proof.
  intros H i' v'. rewrite operands_add_operand, users_add_operand.
  specialize (H i' v'). repeat case_decide; subst; set_solver.
Qed.

(** The users of [o] once [replace_operand] has swapped at least one
    occurrence. *)
Definition users_replaced (h : heap) (i old new o : oid) : gset oid :=
  if decide (o = new) then {[i]} ∪ users (h !!! new)
  else if decide (o = old) then users (h !!! old) ∖ {[i]}
  else users (h !!! o).

Lemma replace_all_snoc old new l x :
  replace_all old new (l ++ [x]) =
  replace_all old new l ++ [if decide (x = old) then new else x].
Proof. unfold replace_all. by rewrite fmap_app. Qed.

Lemma replace_loop h i old new k :
  k ≤ length (operands (h !!! i)) →
  let hk := foldl (replace_at i old new) h (seq 0 k) in
  operands (hk !!! i) =
    replace_all old new (take k (operands (h !!! i))) ++ drop k (operands (h !!! i))
  ∧ (∀ o, o ≠ i → operands (hk !!! o) = operands (h !!! o))
  ∧ (old ∈ take k (operands (h !!! i)) →
       ∀ o, users (hk !!! o) = users_replaced h i old new o)
  ∧ (old ∉ take k (operands (h !!! i)) → hk = h).
Proof.
  induction k as [|k IH]; intros Hk hk.
  - subst hk. simpl. rewrite drop_0. split_and!; [done|done| |done].
    intros H. by apply elem_of_nil in H.
  - destruct IH as (IHo & IHother & IHin & IHout); [lia|].
    subst hk. rewrite seq_S, foldl_app. simpl.
    set (hk := foldl (replace_at i old new) h (seq 0 k)) in *.
    destruct (lookup_lt_is_Some_2 (operands (h !!! i)) k) as [x Hx]; [lia|].
    rewrite (take_S_r _ _ x) by done.
    assert (Hlen : length (replace_all old new (take k (operands (h !!! i)))) = k).
    { unfold replace_all. rewrite length_fmap, length_take. lia. }
    assert (Hcur : operands (hk !!! i) !! k = Some x).
    { rewrite IHo. rewrite lookup_app_r; rewrite Hlen; [|lia].
      by rewrite Nat.sub_diag, lookup_drop, Nat.add_0_r. }
    unfold replace_at. rewrite Hcur.
    assert (Hdrop : drop k (operands (h !!! i)) = x :: drop (S k) (operands (h !!! i))).
    { by apply drop_S. }
    destruct (decide (x = old)) as [->|Hne].
    + split_and!.
      * rewrite operands_add_user, operands_discard_user, operands_set_operands.
        rewrite decide_True by done. rewrite IHo, Hdrop, replace_all_snoc.
        rewrite decide_True by done. rewrite <-(assoc_L (++)). simpl.
        rewrite insert_app_r_alt by lia. by rewrite Hlen, Nat.sub_diag.
      * intros o Ho. rewrite operands_add_user, operands_discard_user, operands_set_operands.
        rewrite decide_False by done. by apply IHother.
      * intros _ o. rewrite users_add_user, !users_discard_user, !users_set_operands.
        unfold users_replaced.
        destruct (decide (old ∈ take k (operands (h !!! i)))) as [Hin|Hnin].
        -- specialize (IHin Hin). rewrite !IHin. unfold users_replaced.
           repeat case_decide; subst; try done; set_by_cases i.
        -- rewrite IHout by done.
           repeat case_decide; subst; try done; set_by_cases i.
      * intros Hn. exfalso. apply Hn. set_solver.
    + split_and!.
      * rewrite IHo, Hdrop, replace_all_snoc. rewrite decide_False by done.
        by rewrite <-(assoc_L (++)).
      * done.
      * intros Hin. apply IHin. set_solver.
      * intros Hn. apply IHout. set_solver.
Qed.

(** What [replace_operand] does to the store. *)
Lemma replace_operand_spec h i old new :
  let h' := replace_operand h i old new in
  (∀ o, operands (h' !!! o) =
        if decide (o = i) then replace_all old new (operands (h !!! i))
        else operands (h !!! o))
  ∧ (old ∈ operands (h !!! i) → ∀ o, users (h' !!! o) = users_replaced h i old new o)
  ∧ (old ∉ operands (h !!! i) → h' = h).
Proof.
  intros h'. subst h'. unfold replace_operand.
  destruct (replace_loop h i old new (length (operands (h !!! i)))) as (Ho & Hother & Hin & Hout);
    [done|].
  rewrite firstn_all, drop_all, app_nil_r in *.
  split_and!; [|done|done].
  intros o. case_decide as Hoi; [by subst|by apply Hother].
Qed.

Lemma elem_of_replace_all old new l v :
  v ∈ replace_all old new l ↔ (v ≠ old ∧ v ∈ l) ∨ (v = new ∧ old ∈ l).
Proof.
  unfold replace_all. rewrite list_elem_of_fmap. split.
  - intros (x & -> & Hx). case_decide; subst; [by right|by left].
  - intros [[Hne Hv]|[-> Ho]].
    + exists v. by rewrite decide_False.
    + exists old. by rewrite decide_True.
Qed.

(** [replace_operand] keeps I1, also when [old_value] occurs several
    times: every occurrence is swapped. *)
Lemma replace_operand_use_def h i old new :
  use_def h → use_def (replace_operand h i old new).
Proof.
  intros Hud. destruct (replace_operand_spec h i old new) as (Ho & Hin & Hout).
  destruct (decide (old ∈ operands (h !!! i))) as [Hold|Hold].
  - intros i' v. rewrite Ho, Hin by done. unfold users_replaced.
    pose proof (Hud i' v) as Hiv. pose proof (Hud i old) as Hio.
    pose proof (Hud i new) as Hin'.
    repeat case_decide; subst; rewrite ?elem_of_replace_all; set_solver.
  - by rewrite Hout.
Qed.

Lemma list_remove_first_absent x l :
  x ∉ l → list_remove_first x l = Raise ValueError.
Proof.
  induction l as [|y l IH]; intros Hx; simpl; [done|].
  rewrite decide_False by set_solver. rewrite IH; [done|set_solver].
Qed.

Lemma list_remove_first_present x l :
  x ∈ l → ∃ l1 l2, l = l1 ++ (x :: l2) ∧ (x ∉ l1) ∧ list_remove_first x l = Ok (l1 ++ l2).
Proof.
  induction l as [|y l IH]; intros Hx; [by apply elem_of_nil in Hx|].
  simpl. destruct (decide (y = x)) as [->|Hne].
  - exists [], l. split_and!; [done|apply not_elem_of_nil|done].
  - destruct IH as (l1 & l2 & -> & Hl1 & ->); [set_solver|].
    exists (y :: l1), l2. split_and!; [done|set_solver|done].
Qed.

(** [remove_operand] when the operand is there: the first occurrence
    goes, and the instruction leaves the users of the value. *)
Lemma remove_operand_present h i v :
  v ∈ operands (h !!! i) →
  ∃ l1 l2 h', operands (h !!! i) = l1 ++ (v :: l2) ∧ (v ∉ l1)
    ∧ remove_operand h i v = Ok h'
    ∧ (∀ o, operands (h' !!! o) = if decide (o = i) then l1 ++ l2 else operands (h !!! o))
    ∧ (∀ o, users (h' !!! o) =
            if decide (o = v) then users (h !!! v) ∖ {[i]} else users (h !!! o)).
Proof.
  intros Hv. destruct (list_remove_first_present _ _ Hv) as (l1 & l2 & Hl & Hl1 & Hr).
  exists l1, l2. eexists. unfold remove_operand. rewrite Hr.
  split_and!; [done|done|done| |].
  - intros o. by rewrite operands_discard_user, operands_set_operands.
  - intros o. rewrite users_discard_user. case_decide; by rewrite users_set_operands.
Qed.

(** [remove_operand] keeps I1 when the value occurs once among the
    operands. *)
Lemma remove_operand_use_def_once h i v l1 l2 h' :
  use_def h → operands (h !!! i) = l1 ++ v :: l2 → v ∉ l1 → v ∉ l2 →
  remove_operand h i v = Ok h' → use_def h'.
Proof.
  intros Hud Hl Hl1 Hl2 Hr.
  destruct (remove_operand_present h i v) as (l1' & l2' & h'' & Hl' & Hl1' & Hr' & Hops & Husr).
  { rewrite Hl. set_solver. }
  rewrite Hr in Hr'. injection Hr' as <-.
  assert (l1' = l1 ∧ l2' = l2) as [-> ->].
  { rewrite Hl in Hl'. clear -Hl' Hl1 Hl1'.
    revert l1' Hl' Hl1'. induction l1 as [|a l1 IH]; intros [|b l1'] Heq Hn; simpl in *.
    - by injection Heq as ->.
    - injection Heq as Ha Hb. subst. set_solver.
    - injection Heq as Ha Hb. subst. set_solver.
    - injection Heq as -> Heq. destruct (IH ltac:(set_solver) l1' Heq ltac:(set_solver)) as [-> ->].
      done. }
  intros i' v'. rewrite Hops, Husr. pose proof (Hud i' v') as Hiv.
  pose proof (Hud i v') as Hiv'. rewrite Hl in Hiv'.
  repeat case_decide; subst; rewrite ?Hl in Hiv; set_solver.
Qed.

(** C1. Use-def consistency is claimed after any sequence of operand
    calls, also when a value was added twice to one instruction.  On a
    fresh instruction 0 and a fresh value 1, [add_operand] twice and
    [remove_operand] once leave 1 among the operands of 0 while 0 is no
    longer a user of 1: [list.remove] deletes one occurrence,
    [users.discard] forgets the instruction altogether. *)
Theorem remove_operand_duplicate_breaks_use_def :
  let h := run ∅ [AddOperand 0 1; AddOperand 0 1; RemoveOperand 0 1] in
  operands (h !!! 0) = [1] ∧ users (h !!! 1) = ∅ ∧ ¬ use_def h.
Proof.
  intros h.
  assert (Ho : operands (h !!! 0) = [1]) by (by vm_compute).
  assert (Hu : users (h !!! 1) = ∅) by (by vm_compute).
  split_and!; [done|done|].
  intros Hud. specialize (Hud 0 1). rewrite Ho, Hu in Hud. set_solver.
Qed.

(** C3, as stated: only the first occurrence of [old_value] is swapped.
    With operands [1; 1], replacing 1 by 2 gives [2; 2], not [2; 1]. *)
Lemma replace_operand_not_first_only :
  let h := run ∅ [AddOperand 0 1; AddOperand 0 1] in
  operands (h !!! 0) = [1; 1]
  ∧ operands (replace_operand h 0 1 2 !!! 0) = [2; 2]
  ∧ operands (replace_operand h 0 1 2 !!! 0)
      ≠ replace_first_occurrence 1 2 (operands (h !!! 0)).
Proof. split_and!; by vm_compute. Qed.

(** C3, amended: [replace_operand] swaps every occurrence of
    [old_value] among the operands of the instruction and leaves the
    operands of every other object alone; when there was an occurrence,
    the instruction joins the users of [new_value] and, unless the two
    values are one, leaves the users of [old_value], other user sets
    being untouched; when there was none, the store is unchanged. *)
Theorem replace_operand_swaps_every_occurrence h i old new :
  let h' := replace_operand h i old new in
  operands (h' !!! i) = replace_all old new (operands (h !!! i))
  ∧ (∀ o, o ≠ i → operands (h' !!! o) = operands (h !!! o))
  ∧ (old ∈ operands (h !!! i) →
       users (h' !!! new) = {[i]} ∪ users (h !!! new)
       ∧ (old ≠ new → users (h' !!! old) = users (h !!! old) ∖ {[i]})
       ∧ (∀ o, o ≠ old → o ≠ new → users (h' !!! o) = users (h !!! o)))
  ∧ (old ∉ operands (h !!! i) → h' = h).
Proof.
  intros h'. destruct (replace_operand_spec h i old new) as (Ho & Hin & Hout).
  fold h' in Ho, Hin, Hout. split_and!.
  - by rewrite Ho, decide_True.
  - intros o Hne. by rewrite Ho, decide_False.
  - intros Hold. specialize (Hin Hold). split_and!.
    + rewrite Hin. unfold users_replaced. by rewrite decide_True.
    + intros Hne. rewrite Hin. unfold users_replaced.
      rewrite decide_False by done. by rewrite decide_True.
    + intros o H1 H2. rewrite Hin. unfold users_replaced.
      by rewrite !decide_False.
  - done.
Qed.

Lemma replace_operand_swaps_every_occurrence_witness :
  let h := run ∅ [AddOperand 0 1; AddOperand 0 1; AddOperand 0 3] in
  operands (replace_operand h 0 1 2 !!! 0) = [2; 2; 3]
  ∧ users (replace_operand h 0 1 2 !!! 2) = {[0]} ∪ users (h !!! 2)
  ∧ users (replace_operand h 0 1 2 !!! 1) = users (h !!! 1) ∖ {[0]}.
Proof.
  intros h.
  destruct (replace_operand_swaps_every_occurrence h 0 1 2) as (Ho & _ & Hin & _).
  assert (Ho' : operands (h !!! 0) = [1; 1; 3]) by (by vm_compute).
  assert (Hold : 1 ∈ operands (h !!! 0)) by (rewrite Ho'; apply elem_of_cons; by left).
  destruct (Hin Hold) as (Hn & Hd & _).
  split_and!; [by rewrite Ho|done|by apply Hd].
Defined.

(** C4, as stated: [remove_operand] returns normally for every value.
    On a fresh instruction the value is not among the operands and
    [list.remove] raises [ValueError]. *)
Lemma remove_operand_absent_raises :
  ¬ (∀ (h : heap) (i v : oid), is_ok (remove_operand h i v) = true).
Proof. intros H. specialize (H ∅ 0 1). by vm_compute in H. Qed.

(** C4, amended: [remove_operand] returns normally exactly when the value
    is among the operands of the instruction; otherwise it raises
    [ValueError] and the store is as before (no new store is produced);
    [add_operand] and [replace_operand] accept every argument. *)
Theorem remove_operand_ok_iff_present h i v :
  (is_ok (remove_operand h i v) = true ↔ v ∈ operands (h !!! i))
  ∧ (remove_operand h i v = Raise ValueError ↔ v ∉ operands (h !!! i))
  ∧ (∀ o, is_ok (exec h (AddOperand i o)) = true)
  ∧ (∀ o n, is_ok (exec h (ReplaceOperand i o n)) = true).
Proof.
  split_and!; [| |done|done].
  - split.
    + intros Hok. destruct (decide (v ∈ operands (h !!! i))) as [|Hn]; [done|].
      unfold remove_operand in Hok. by rewrite list_remove_first_absent in Hok.
    + intros Hv. destruct (remove_operand_present h i v Hv)
        as (? & ? & ? & _ & _ & -> & _). done.
  - split.
    + intros Hr Hv. destruct (remove_operand_present h i v Hv)
        as (? & ? & ? & _ & _ & Hr' & _). congruence.
    + intros Hn. unfold remove_operand. by rewrite list_remove_first_absent.
Qed.

End IRGraphFacts.

Module BlocksFacts.
Import Blocks.

Lemma predecessors_set_predecessors (h : store) a s o :
  predecessors (<[a := set_predecessors (h !!! a) s]> h !!! o) =
  if decide (o = a) then s else predecessors (h !!! o).
Proof.
  case_decide; [subst; by rewrite lookup_total_insert_eq|by rewrite lookup_total_insert_ne].
Qed.

Lemma successors_set_predecessors (h : store) a s o :
  successors (<[a := set_predecessors (h !!! a) s]> h !!! o) = successors (h !!! o).
Proof.
  destruct (decide (a = o)) as [->|];
    [by rewrite lookup_total_insert_eq|by rewrite lookup_total_insert_ne].
Qed.

Lemma successors_set_successors (h : store) a s o :
  successors (<[a := set_successors (h !!! a) s]> h !!! o) =
  if decide (o = a) then s else successors (h !!! o).
Proof.
  case_decide; [subst; by rewrite lookup_total_insert_eq|by rewrite lookup_total_insert_ne].
Qed.

Lemma predecessors_set_successors (h : store) a s o :
  predecessors (<[a := set_successors (h !!! a) s]> h !!! o) = predecessors (h !!! o).
Proof.
  destruct (decide (a = o)) as [->|];
    [by rewrite lookup_total_insert_eq|by rewrite lookup_total_insert_ne].
Qed.

Ltac edges :=
  repeat first
    [ rewrite predecessors_set_predecessors | rewrite successors_set_predecessors
    | rewrite successors_set_successors | rewrite predecessors_set_successors ].

(** Each mutator writes one side of an edge and then its mirror. *)
Lemma exec_cfg_symmetric h c : cfg_symmetric h → cfg_symmetric (exec h c).
Proof.
  intros Hsym a b. pose proof (Hsym a b) as Hab.
  destruct c as [x p|x s|x p|x s]; simpl;
    [unfold add_predecessor|unfold add_successor
    |unfold remove_predecessor|unfold remove_successor];
    cbv zeta; edges; repeat case_decide; subst; set_solver.
Qed.

Lemma run_cfg_symmetric h cs : cfg_symmetric h → cfg_symmetric (run h cs).
Proof.
  revert h. induction cs as [|c cs IH]; intros h Hsym; [done|].
  simpl. apply IH. by apply exec_cfg_symmetric.
Qed.

(** C2. After any sequence of [add_predecessor], [add_successor],
    [remove_predecessor] and [remove_successor] calls on freshly
    constructed blocks, [b] is a successor of [a] exactly when [a] is a
    predecessor of [b]. *)
Theorem cfg_symmetry_after_mutators (cs : list call) (a b : bid) :
  b ∈ successors (run ∅ cs !!! a) ↔ a ∈ predecessors (run ∅ cs !!! b).
Proof.
  apply (run_cfg_symmetric ∅ cs). intros x y.
  by rewrite !lookup_total_empty.
Qed.

End BlocksFacts.

Module TypesFacts.
Import Types.

Lemma get_type_construct_and_register ts t n :
  get_type (construct_and_register ts t).2 n =
  if decide (n = name t) then Some {| ident := next ts; value := t |}
  else get_type ts n.
Proof.
  unfold construct_and_register, get_type, register_type. simpl.
  case_decide as Hn; [subst; by rewrite lookup_insert_eq|by rewrite lookup_insert_ne].
Qed.

Lemma factory_construct ts c :
  ∃ t, name t = constructed_name c ∧ factory ts c = construct_and_register ts t.
Proof. destruct c; simpl; eexists; (split; [|reflexivity]); done. Qed.

Lemma get_type_factory_other ts c n :
  n ≠ constructed_name c → get_type (factory ts c).2 n = get_type ts n.
Proof.
  intros Hn. destruct (factory_construct ts c) as (t & Ht & ->).
  rewrite get_type_construct_and_register, decide_False; [done|congruence].
Qed.

Lemma get_type_factory_same ts c :
  get_type (factory ts c).2 (name (value (factory ts c).1)) = Some (factory ts c).1.
Proof.
  destruct (factory_construct ts c) as (t & Ht & ->).
  rewrite get_type_construct_and_register. simpl. by rewrite decide_True.
Qed.

Lemma get_type_factories_other ts cs n :
  Forall (λ c, constructed_name c ≠ n) cs →
  get_type (factories ts cs) n = get_type ts n.
Proof.
  revert ts. induction cs as [|c cs IH]; intros ts Hcs; [done|].
  apply Forall_cons in Hcs as [Hc Hcs]. simpl.
  unfold factories in IH. rewrite IH by done.
  by apply get_type_factory_other.
Qed.

(** C5, as stated: [get_type(t.name)] is [t] after any later factory
    calls.  Two calls of [create_pointer_type] on [i32] build two objects
    of one name; the second registration overwrites the first. *)
Lemma get_type_not_interned :
  ∃ i32 t t' ts1 ts2,
    get_type new_TypeSystem "i32" = Some i32
    ∧ create_pointer_type new_TypeSystem i32 = (t, ts1)
    ∧ create_pointer_type ts1 i32 = (t', ts2)
    ∧ get_type ts2 (name (value t)) = Some t'
    ∧ ident t' ≠ ident t
    ∧ get_type ts2 (name (value t)) ≠ Some t.
Proof.
  do 5 eexists. split_and!; [by vm_compute|reflexivity|reflexivity|by vm_compute| |];
    by vm_compute.
Qed.

(** C5, amended: right after a factory call returns [t],
    [get_type(t.name)] is [t] itself, and it stays so through later
    factory calls that construct types of other names; a later call
    constructing a type of the same name replaces the entry by its own
    result. *)
Theorem get_type_after_factory ts c cs :
  let t := (factory ts c).1 in
  let ts1 := (factory ts c).2 in
  get_type ts1 (name (value t)) = Some t
  ∧ (Forall (λ c', constructed_name c' ≠ name (value t)) cs →
       get_type (factories ts1 cs) (name (value t)) = Some t)
  ∧ (∀ c', constructed_name c' = name (value t) →
       get_type (factory (factories ts1 cs) c').2 (name (value t))
         = Some (factory (factories ts1 cs) c').1
       ∧ ident (factory (factories ts1 cs) c').1 = next (factories ts1 cs)).
Proof.
  intros t ts1. split_and!.
  - apply get_type_factory_same.
  - intros Hcs. rewrite get_type_factories_other by done. apply get_type_factory_same.
  - intros c' Hc'. destruct (factory_construct (factories ts1 cs) c') as (t' & Ht' & ->).
    rewrite get_type_construct_and_register. rewrite decide_True by congruence. done.
Qed.

Lemma get_type_after_factory_witness :
  let i32 := {| ident := 5; value := IntegerType_create 32 true |} in
  let t := (factory new_TypeSystem (CreatePointer i32)).1 in
  let ts1 := (factory new_TypeSystem (CreatePointer i32)).2 in
  get_type (factories ts1 [CreateArray i32 (Some 4%Z); CreateStruct "S" [("a", i32)]])
           (name (value t)) = Some t.
Proof.
  intros i32 t ts1.
  apply (get_type_after_factory new_TypeSystem (CreatePointer i32)
           [CreateArray i32 (Some 4%Z); CreateStruct "S" [("a", i32)]]).
  repeat constructor; by vm_compute.
Defined.

End TypesFacts.

Module SymbolsFacts.
Import Symbols.

(** What holds of every table built through the API: the current scope
    is allocated, parents are older than their children, and bound
    symbols are allocated. *)
Record wf (t : SymbolTable) : Prop := mkWf {
  wf_current : current_scope t < next_scope t;
  wf_parent : ∀ s p, parent (scopes t !!! s) = Some p → p < s ∧ s < next_scope t;
  wf_bound : ∀ s n i, symbols (scopes t !!! s) !! n = Some i → i < next_symbol t
}.

Lemma wf_new : wf new_SymbolTable.
Proof.
  split; simpl.
  - lia.
  - intros s p. destruct (decide (s = 0)) as [->|Hs].
    + by rewrite lookup_total_singleton_eq.
    + by rewrite lookup_total_singleton_ne.
  - intros s n i. destruct (decide (s = 0)) as [->|Hs].
    + by rewrite lookup_total_singleton_eq.
    + by rewrite lookup_total_singleton_ne.
Qed.

Lemma wf_exec t c : wf t → wf (exec t c).
Proof.
  intros [Hc Hp Hb]. destruct c as [n| |n ty g c d| |]; simpl.
  - split; simpl.
    + lia.
    + intros s p.
      destruct (decide (s = current_scope t)) as [->|Hs];
        [rewrite lookup_total_insert_eq|rewrite lookup_total_insert_ne by done]; simpl.
      * destruct (decide (next_scope t = current_scope t)) as [Heq|Hne]; [lia|].
        rewrite lookup_total_insert_ne by done. intros H. apply Hp in H. lia.
      * destruct (decide (s = next_scope t)) as [->|Hs'];
          [rewrite lookup_total_insert_eq|rewrite lookup_total_insert_ne by done]; simpl.
        -- intros [= <-]. lia.
        -- intros H. apply Hp in H. lia.
    + intros s m i.
      destruct (decide (s = current_scope t)) as [->|Hs];
        [rewrite lookup_total_insert_eq|rewrite lookup_total_insert_ne by done]; simpl.
      * destruct (decide (next_scope t = current_scope t)) as [Heq|Hne]; [lia|].
        rewrite lookup_total_insert_ne by done. apply Hb.
      * destruct (decide (s = next_scope t)) as [->|Hs'];
          [rewrite lookup_total_insert_eq|rewrite lookup_total_insert_ne by done]; simpl.
        -- by rewrite lookup_empty.
        -- apply Hb.
  - unfold exit_scope. destruct (parent (scopes t !!! current_scope t)) as [p|] eqn:Hpar.
    + split; simpl; [|done|done]. apply Hp in Hpar. lia.
    + by split.
  - split; simpl.
    + done.
    + intros s p.
      destruct (decide (s = current_scope t)) as [->|Hs];
        [rewrite lookup_total_insert_eq|rewrite lookup_total_insert_ne by done]; simpl; apply Hp.
    + intros s m i.
      destruct (decide (s = current_scope t)) as [->|Hs];
        [rewrite lookup_total_insert_eq|rewrite lookup_total_insert_ne by done]; simpl.
      * destruct (decide (m = n)) as [->|Hm];
          [rewrite lookup_insert_eq|rewrite lookup_insert_ne by done].
        -- intros [= <-]. lia.
        -- intros H. apply Hb in H. lia.
      * intros H. apply Hb in H. lia.
  - split; simpl.
    + done.
    + intros s p.
      destruct (decide (s = current_scope t)) as [->|Hs];
        [rewrite lookup_total_insert_eq|rewrite lookup_total_insert_ne by done]; simpl; apply Hp.
    + intros s m i.
      destruct (decide (s = current_scope t)) as [->|Hs];
        [rewrite lookup_total_insert_eq|rewrite lookup_total_insert_ne by done]; simpl.
      * by rewrite lookup_empty.
      * apply Hb.
  - split; simpl.
    + lia.
    + intros s p.
      destruct (decide (s = next_scope t)) as [->|Hs];
        [rewrite lookup_total_insert_eq|rewrite lookup_total_insert_ne by done]; simpl.
      * done.
      * intros H. apply Hp in H. lia.
    + intros s m i.
      destruct (decide (s = next_scope t)) as [->|Hs];
        [rewrite lookup_total_insert_eq|rewrite lookup_total_insert_ne by done]; simpl.
      * by rewrite lookup_empty.
      * apply Hb.
Qed.

Lemma wf_run cs : wf (run cs).
Proof.
  unfold run. induction cs as [|c cs IH] using rev_ind; [apply wf_new|].
  rewrite foldl_app. simpl. by apply wf_exec.
Qed.

Lemma innermost_functional h n s r1 r2 :
  innermost h n s r1 → innermost h n s r2 → r1 = r2.
Proof.
  intros H1. revert r2. induction H1 as [s sym Hs|s Hs Hp|s p r Hs Hp H1 IH];
    intros r2 H2; inversion H2; subst; try congruence.
  apply IH. congruence.
Qed.

(** With enough fuel [Scope.lookup_symbol] returns, and what it returns
    is the innermost binding (the own binding when not recursive). *)
Lemma Scope_lookup_symbol_returns h n fuel self recursive :
  (∀ s p, parent (h !!! s) = Some p → p < s) → self < fuel →
  ∃ r, Scope_lookup_symbol fuel h self n recursive = Some r
       ∧ (recursive = true → innermost h n self r)
       ∧ (recursive = false → r = symbols (h !!! self) !! n).
Proof.
  intros Hp. revert self recursive.
  induction fuel as [|fuel IH]; intros self recursive Hlt; [lia|].
  simpl. destruct (symbols (h !!! self) !! n) as [sym|] eqn:Hsym.
  { exists (Some sym). split_and!; [done| |done]. intros _. by constructor. }
  destruct recursive.
  - destruct (parent (h !!! self)) as [p|] eqn:Hpar.
    + destruct (IH p true) as (r & Hr & Hin & _).
      { apply Hp in Hpar. lia. }
      exists r. split_and!; [done| |done]. intros _. eapply innermost_up; eauto.
    + exists None. split_and!; [done| |done]. intros _. by apply innermost_root.
  - exists None. by split_and!.
Qed.

(** The lookup reads the symbols and the parents of the scopes on the way
    up only; they are not younger than the scope it starts from. *)
Lemma Scope_lookup_symbol_agree h h' n fuel self recursive :
  (∀ s p, parent (h !!! s) = Some p → p < s) →
  (∀ s, s ≤ self → symbols (h' !!! s) = symbols (h !!! s)
                   ∧ parent (h' !!! s) = parent (h !!! s)) →
  Scope_lookup_symbol fuel h' self n recursive = Scope_lookup_symbol fuel h self n recursive.
Proof.
  intros Hp. revert self recursive.
  induction fuel as [|fuel IH]; intros self recursive Hsame; [done|].
  simpl. destruct (Hsame self) as [-> ->]; [lia|].
  destruct (symbols (h !!! self) !! n); [done|].
  destruct recursive; [|done].
  destruct (parent (h !!! self)) as [p|] eqn:Hpar; [|done].
  apply IH. intros s Hs. apply Hsame. apply Hp in Hpar. lia.
Qed.

Lemma Scope_lookup_symbol_here h n fuel self recursive sym :
  symbols (h !!! self) !! n = Some sym →
  Scope_lookup_symbol (S fuel) h self n recursive = Some (Some sym).
Proof. intros H. simpl. by rewrite H. Qed.

(** Entering a scope, binding a name there and leaving again. *)
Lemma shadow_and_resurface t x nm ty g c d :
  wf t →
  let t2 := (add_symbol (enter_scope t nm) x ty g c d).2 in
  let loc := (add_symbol (enter_scope t nm) x ty g c d).1 in
  ∃ r, lookup_symbol t x false = Some r
       ∧ innermost (scopes t) x (current_scope t) r
       ∧ lookup_symbol t2 x false = Some (Some loc)
       ∧ lookup_symbol t2 x true = Some (Some loc)
       ∧ r ≠ Some loc
       ∧ current_scope (exit_scope t2) = current_scope t
       ∧ lookup_symbol (exit_scope t2) x false = Some r.
Proof.
  intros [Hc Hp Hb] t2 loc.
  assert (Hp' : ∀ s p, parent (scopes t !!! s) = Some p → p < s).
  { intros s p H. by apply Hp in H as [? _]. }
  destruct (Scope_lookup_symbol_returns (scopes t) x (next_scope t) (current_scope t) true)
    as (r & Hr & Hin & _); [done|done|].
  exists r. specialize (Hin eq_refl).
  assert (Hne : next_scope t ≠ current_scope t) by lia.
  assert (Hcur2 : scopes t2 !!! next_scope t =
                  {| name := nm; parent := Some (current_scope t); children := [];
                     symbols := <[x := loc]> ∅ |}).
  { subst t2. simpl. rewrite lookup_total_insert_eq.
    rewrite lookup_total_insert_ne by done. by rewrite lookup_total_insert_eq. }
  assert (Hexit : exit_scope t2 =
                  {| scopes := scopes t2; next_scope := next_scope t2;
                     syms := syms t2; next_symbol := next_symbol t2;
                     global_scope := global_scope t2; current_scope := current_scope t |}).
  { unfold exit_scope. replace (current_scope t2) with (next_scope t) by done.
    by rewrite Hcur2. }
  split_and!.
  - done.
  - done.
  - unfold lookup_symbol. replace (current_scope t2) with (next_scope t) by done.
    replace (next_scope t2) with (S (next_scope t)) by done.
    apply Scope_lookup_symbol_here. rewrite Hcur2. simpl. by rewrite lookup_insert_eq.
  - unfold lookup_symbol. replace (current_scope t2) with (next_scope t) by done.
    replace (next_scope t2) with (S (next_scope t)) by done.
    apply Scope_lookup_symbol_here. rewrite Hcur2. simpl. by rewrite lookup_insert_eq.
  - intros ->. clear -Hin Hb. subst loc. simpl in Hin.
    remember (Some (next_symbol t)) as r eqn:Hr.
    induction Hin as [s sym Hs| |]; [|done|auto].
    injection Hr as ->. apply Hb in Hs. lia.
  - by rewrite Hexit.
  - rewrite Hexit. unfold lookup_symbol. cbn [current_scope next_scope scopes negb].
    replace (next_scope t2) with (S (next_scope t)) by done.
    destruct (Scope_lookup_symbol_returns (scopes t) x (S (next_scope t)) (current_scope t) true)
      as (r' & Hr' & Hin' & _); [done|lia|].
    rewrite (innermost_functional _ _ _ _ _ Hin (Hin' eq_refl)).
    rewrite <-Hr'. apply Scope_lookup_symbol_agree; [done|].
    intros s Hs.
    assert (s ≠ next_scope t) by lia.
    subst t2. cbn [add_symbol enter_scope snd scopes current_scope].
    destruct (decide (s = current_scope t)) as [->|Hs'].
    + rewrite lookup_total_insert_ne by done. rewrite lookup_total_insert_eq.
      cbn [symbols parent]. by rewrite lookup_total_insert_ne.
    + by rewrite !lookup_total_insert_ne.
Qed.

(** C8. Symbol shadowing, on every table [t] the API can build: the lookup
    of [x] returns the innermost binding [r] walking the parents (absent
    when no scope on the way binds [x]); after [enter_scope] and
    [add_symbol] of a local [x] the lookup returns the local, a symbol
    other than [r]; after [exit_scope] it returns [r] again. *)
Theorem lookup_symbol_shadowing cs x nm ty g c d :
  let t := run cs in
  let t2 := (add_symbol (enter_scope t nm) x ty g c d).2 in
  let loc := (add_symbol (enter_scope t nm) x ty g c d).1 in
  ∃ r, lookup_symbol t x false = Some r
       ∧ innermost (scopes t) x (current_scope t) r
       ∧ lookup_symbol t2 x false = Some (Some loc)
       ∧ r ≠ Some loc
       ∧ lookup_symbol (exit_scope t2) x false = Some r.
Proof.
  intros t t2 loc.
  destruct (shadow_and_resurface t x nm ty g c d (wf_run cs))
    as (r & H1 & H2 & H3 & _ & H4 & _ & H5).
  exists r. by split_and!.
Qed.

(** Scenario S6: global [x], scope "function" with a local [x]. *)
Example S6_symbol_shadowing :
  let i32 := Types.IntegerType_create 32 true in
  let t0 := run [AddSymbol "x" i32 true false false] in
  let t2 := (add_symbol (enter_scope t0 "function") "x" i32 false false false).2 in
  lookup_symbol t0 "x" false = Some (Some 0)
  ∧ lookup_symbol t2 "x" false = Some (Some 1)
  ∧ lookup_symbol (exit_scope t2) "x" false = Some (Some 0).
Proof. split_and!; by vm_compute. Qed.

End SymbolsFacts.

Module ControlFlowFacts.
Import IR ControlFlow.

Lemma create_nodes_dom bs b : b ∈ bs → b ∈ dom (create_nodes bs).
Proof.
  unfold create_nodes. induction bs as [|x bs IH] using rev_ind; intros Hb.
  - by apply elem_of_nil in Hb.
  - rewrite foldl_app. simpl. rewrite dom_insert_L.
    apply elem_of_app in Hb as [Hb|Hb]; set_solver.
Qed.

Lemma link_dom b r s ns' :
  link b r s = Ok ns' → ∃ ns, r = Ok ns ∧ dom ns ⊆ dom ns'.
Proof.
  unfold link. destruct r as [ns|e]; [|done].
  destruct (ns !! s); [|done]. intros [= <-].
  exists ns. split; [done|]. rewrite !dom_insert_L. set_solver.
Qed.

Lemma foldl_link_dom b ss r ns' :
  foldl (link b) r ss = Ok ns' → ∃ ns, r = Ok ns ∧ dom ns ⊆ dom ns'.
Proof.
  revert r. induction ss as [|s ss IH]; intros r; simpl.
  - intros ->. by exists ns'.
  - intros H. apply IH in H as (ns1 & H1 & Hsub).
    apply link_dom in H1 as (ns & -> & Hsub'). exists ns. split; [done|set_solver].
Qed.

Lemma link_nodes_dom f ns ns' : link_nodes f ns = Ok ns' → dom ns ⊆ dom ns'.
Proof.
  unfold link_nodes. generalize (blocks f) as bs. intros bs.
  assert (∀ r, foldl (λ r b, foldl (link b) r (elements (IR.successors (block_store f !!! b))))
                 r bs = Ok ns' → ∃ ns0, r = Ok ns0 ∧ dom ns0 ⊆ dom ns') as Hgen.
  { induction bs as [|b bs IH]; intros r; simpl.
    - intros ->. by exists ns'.
    - intros H. apply IH in H as (ns1 & H1 & Hsub).
      apply foldl_link_dom in H1 as (ns0 & -> & Hsub'). exists ns0. split; [done|set_solver]. }
  intros H. apply Hgen in H as (ns0 & [= <-] & Hsub). done.
Qed.

(** A graph that was built has a node for every block of its function. *)
Lemma build_cfg_nodes f cfg b :
  build_cfg f = Ok cfg → b ∈ blocks f → function cfg = f ∧ is_Some (nodes cfg !! b).
Proof.
  unfold build_cfg. destruct (link_nodes f (create_nodes (blocks f))) as [ns|e] eqn:Hl; [|done].
  intros [= <-] Hb. split; [done|]. simpl. apply elem_of_dom.
  apply link_nodes_dom in Hl. apply Hl. by apply create_nodes_dom.
Qed.

Section traverse_facts.
Variable iter : gset nid → list nid.
Hypothesis iter_perm : ∀ X, iter X ≡ₚ elements X.
Variable ns : gmap bid CFGNode.

Definition out_degree (n : nid) : nat := size (successors (ns !!! n)).

(** Edges leaving the nodes not yet visited. *)
Definition pending (visited : gset nid) : nat :=
  sum_list_with out_degree (elements (dom ns ∖ visited)).

Lemma out_degree_outside n : n ∉ dom ns → out_degree n = 0.
Proof.
  intros Hn. unfold out_degree. apply not_elem_of_dom in Hn.
  rewrite lookup_total_alt, Hn. simpl. exact (size_empty (C:=gset nid)).
Qed.

Lemma pending_visit visited n :
  n ∉ visited → pending ({[n]} ∪ visited) + out_degree n = pending visited.
Proof.
  intros Hn. unfold pending. destruct (decide (n ∈ dom ns)) as [Hd|Hd].
  - assert (dom ns ∖ visited = {[n]} ∪ dom ns ∖ ({[n]} ∪ visited)) as ->.
    { apply set_eq. intros y. destruct (decide (y = n)); set_solver. }
    rewrite elements_union_singleton by set_solver.
    simpl. lia.
  - rewrite out_degree_outside by done.
    assert (dom ns ∖ ({[n]} ∪ visited) = dom ns ∖ visited) as -> by set_solver.
    lia.
Qed.

Lemma length_iter X : length (iter X) = size X.
Proof. by rewrite iter_perm. Qed.

Lemma elem_of_iter X n : n ∈ iter X ↔ n ∈ X.
Proof. by rewrite iter_perm, elem_of_elements. Qed.

(** What the loop keeps true, from [start]. *)
Record inv (start : nid) (visited : gset nid) (order stack : list nid) : Prop := mkInv {
  inv_nodup : NoDup order;
  inv_order : ∀ n, n ∈ order ↔ n ∈ visited;
  inv_reach : ∀ n, n ∈ visited ∨ n ∈ stack → rtc (edge ns) start n;
  inv_closed : ∀ n m, n ∈ visited → edge ns n m → m ∈ visited ∨ m ∈ stack;
  inv_start : (order = [] ∧ stack = [start]) ∨ head order = Some start
}.

(** What [traverse] returns. *)
Definition preorder_of (start : nid) (l : list nid) : Prop :=
  head l = Some start ∧ NoDup l ∧ ∀ n, n ∈ l ↔ rtc (edge ns) start n.

Lemma traverse_loop_returns start fuel visited order stack :
  inv start visited order stack →
  length stack + pending visited < fuel →
  ∃ l, traverse_loop iter ns fuel visited order stack = Some l ∧ preorder_of start l.
Proof.
  revert visited order stack.
  induction fuel as [|fuel IH]; intros visited order stack Hinv Hfuel; [lia|].
  destruct Hinv as [Hnd Hord Hreach Hclosed Hstart].
  destruct stack as [|node stack]; simpl.
  - exists order. split; [done|].
    destruct Hstart as [[_ ?]|Hhead]; [done|].
    split_and!; [done|done|]. intros n. split.
    + intros Hn. apply Hreach. left. by apply Hord.
    + intros Hrt. apply Hord. revert n Hrt.
      apply (rtc_ind_r (λ n, n ∈ visited)).
      * apply Hord. destruct order; [done|]. injection Hhead as ->. set_solver.
      * intros y z _ Hyz Hy.
        destruct (Hclosed y z Hy Hyz) as [?|Hz]; [done|]. by apply elem_of_nil in Hz.
  - destruct (decide (node ∈ visited)) as [Hv|Hv].
    + apply IH; [|simpl in Hfuel; lia]. split; [done|done| | |].
      * intros n [?|?]; apply Hreach; [by left|right; set_solver].
      * intros n m Hn Hnm. destruct (Hclosed n m Hn Hnm) as [?|Hm]; [by left|].
        apply elem_of_cons in Hm as [->|?]; [by left|by right].
      * destruct Hstart as [[-> _]|?]; [|by right].
        apply Hord in Hv. by apply elem_of_nil in Hv.
    + assert (Hnode : rtc (edge ns) start node) by (apply Hreach; right; set_solver).
      apply IH.
      * split.
        -- apply NoDup_app. split_and!; [done| |apply NoDup_singleton].
           intros x Hx ->%list_elem_of_singleton. by apply Hv, Hord.
        -- intros n. rewrite elem_of_app, list_elem_of_singleton, Hord. set_solver.
        -- intros n [Hn|Hn].
           ++ apply elem_of_union in Hn as [->%elem_of_singleton|Hn]; [done|].
              apply Hreach. by left.
           ++ apply elem_of_app in Hn as [Hn|Hn].
              ** apply elem_of_reverse, elem_of_iter in Hn.
                 eapply rtc_r; [exact Hnode|]. unfold edge. set_solver.
              ** apply Hreach. right. set_solver.
        -- intros n m Hn Hnm.
           destruct (decide (m ∈ {[node]} ∪ visited)) as [?|Hm]; [by left|right].
           apply elem_of_union in Hn as [->%elem_of_singleton|Hn].
           ++ apply elem_of_app. left. apply elem_of_reverse, elem_of_iter.
              unfold edge in Hnm. set_solver.
           ++ destruct (Hclosed n m Hn Hnm) as [?|Hm']; [set_solver|].
              apply elem_of_app. right. set_solver.
        -- right. destruct Hstart as [[-> [= -> ->]]|Hhead]; [done|].
           destruct order; [done|]. done.
      * rewrite length_app, length_reverse, length_iter.
        pose proof (pending_visit visited node Hv) as Hp.
        assert (size (successors (ns !!! node) ∖ ({[node]} ∪ visited)) ≤ out_degree node).
        { unfold out_degree. apply subseteq_size. set_solver. }
        simpl in Hfuel. lia.
Qed.

Lemma traverse_from_returns start :
  ∃ l, traverse_loop iter ns (traverse_fuel ns) ∅ [] [start] = Some l ∧ preorder_of start l.
Proof.
  apply traverse_loop_returns.
  - split.
    + apply NoDup_nil_2.
    + intros n. set_solver.
    + intros n [Hn|Hn]; [set_solver|]. apply list_elem_of_singleton in Hn as ->. done.
    + intros n m Hn. set_solver.
    + by left.
  - unfold traverse_fuel, pending. simpl.
    assert (dom ns ∖ ∅ = dom ns) as -> by set_solver.
    change (λ n, size (successors (ns !!! n))) with out_degree. lia.
Qed.
End traverse_facts.

(** C10. [traverse()] without a start on a graph built from a function:
    when the function has no block, [blocks[0]] raises [IndexError];
    otherwise the walk starts at the node of the first block and returns
    the nodes reachable from it, each once, the start first — whatever the
    order in which the successor sets are iterated. *)
Theorem traverse_default_start (iter : gset nid → list nid) f cfg :
  (∀ X, iter X ≡ₚ elements X) →
  build_cfg f = Ok cfg →
  match blocks f with
  | [] => traverse iter cfg None = Some (Raise IndexError)
  | entry :: _ =>
      ∃ l, traverse iter cfg None = Some (Ok l)
           ∧ head l = Some entry
           ∧ NoDup l
           ∧ ∀ n, n ∈ l ↔ rtc (edge (nodes cfg)) entry n
  end.
Proof.
  intros Hiter Hbuild. destruct (blocks f) as [|entry rest] eqn:Hb.
  - unfold build_cfg in Hbuild.
    destruct (link_nodes f (create_nodes (blocks f))); [|done].
    injection Hbuild as <-. unfold traverse. simpl. by rewrite Hb.
  - destruct (build_cfg_nodes f cfg entry Hbuild) as [Hf [nd Hnd]].
    { rewrite Hb. apply elem_of_cons. by left. }
    destruct (traverse_from_returns iter Hiter (nodes cfg) entry) as (l & Hl & H1 & H2 & H3).
    exists l. unfold traverse. rewrite Hf, Hb, Hnd, Hl. done.
Qed.

Lemma traverse_default_start_witness :
  let f := {| blocks := [0; 1; 2; 3];
              block_store := {[ 0 := mkBasicBlock "entry" [] ∅ {[1; 2]};
                                1 := mkBasicBlock "if_true" [] {[0]} {[3]};
                                2 := mkBasicBlock "if_false" [] {[0]} {[3]};
                                3 := mkBasicBlock "exit" [] {[1; 2]} ∅ ]} |} in
  ∃ cfg l, build_cfg f = Ok cfg ∧ traverse elements cfg None = Some (Ok l)
           ∧ head l = Some 0 ∧ NoDup l.
Proof.
  intros f. destruct (build_cfg f) as [cfg|e] eqn:Hb; [|by vm_compute in Hb].
  exists cfg.
  pose proof (traverse_default_start elements f cfg (λ X, reflexivity _) Hb) as H.
  simpl in H. destruct H as (l & H1 & H2 & H3 & _).
  exists l. by split_and!.
Defined.

End ControlFlowFacts.

Module ExpressionFacts.
Import IR ControlFlow DataFlow.

Lemma operand_names_loop_cons o rest acc :
  operand_names_loop (o :: rest) acc =
  match token o with
  | Some t => operand_names_loop rest (acc ++ [t])
  | None => None
  end.
Proof. simpl. unfold token. by destruct (v_class o), (truthy (v_name o)). Qed.

(** The loop returns the tokens in operand order when every operand has
    one, and nothing otherwise. *)
Lemma operand_names_loop_tokens ops acc :
  operand_names_loop ops acc =
  if decide (Forall (λ o, is_Some (token o)) ops) then Some (acc ++ omap token ops)
  else None.
Proof.
  revert acc. induction ops as [|o ops IH]; intros acc.
  - case_decide as Hf; [by rewrite app_nil_r|]. destruct Hf. constructor.
  - rewrite operand_names_loop_cons. destruct (token o) as [t|] eqn:Ht.
    + rewrite IH.
      destruct (decide (Forall (λ o, is_Some (token o)) ops)) as [Hf|Hf].
      * rewrite decide_True by (constructor; [by rewrite Ht|done]).
        cbn [omap list_omap]. rewrite Ht. by rewrite <-(assoc_L (++)).
      * rewrite decide_False; [done|]. intros H. inversion H. contradiction.
    + rewrite decide_False; [done|]. intros Hf.
      inversion Hf as [|?? [? Hs] ?]; subst. congruence.
Qed.

Lemma insert_sorted_Permutation x l : insert_sorted x l ≡ₚ x :: l.
Proof.
  induction l as [|y l IH]; simpl; [done|].
  destruct (String.leb x y); [done|]. rewrite IH. apply perm_swap.
Qed.

Lemma sorted_Permutation l : sorted l ≡ₚ l.
Proof.
  induction l as [|x l IH]; simpl; [done|].
  by rewrite insert_sorted_Permutation, IH.
Qed.

Lemma insert_sorted_Sorted x l :
  Sorted (λ a b, String.leb a b = true) l →
  Sorted (λ a b, String.leb a b = true) (insert_sorted x l).
Proof.
  induction 1 as [|y l Hl IH Hhd]; simpl.
  - by repeat constructor.
  - destruct (String.leb x y) eqn:Hxy.
    + by repeat constructor.
    + constructor; [done|].
      assert (Hyx : String.leb y x = true).
      { destruct (String.leb_total x y); congruence. }
      destruct Hhd as [|z l Hyz]; simpl; [by constructor|].
      destruct (String.leb x z); by constructor.
Qed.

Lemma sorted_Sorted l : Sorted (λ a b, String.leb a b = true) (sorted l).
Proof.
  induction l as [|x l IH]; simpl; [constructor|]. by apply insert_sorted_Sorted.
Qed.

Lemma length_omap_token ops :
  Forall (λ o, is_Some (token o)) ops → length (omap token ops) = length ops.
Proof.
  induction 1 as [|o ops [t Ht] _ IH]; [done|].
  cbn [omap list_omap]. rewrite Ht. simpl. by rewrite <-IH.
Qed.

(** C6, as stated: any operand with a non-empty name contributes its
    name.  An add of two named values that are not instructions (two
    function parameters) has no expression in the code, while the
    statement gives it [add(p, q)]. *)
Lemma from_instruction_named_value_operands :
  let p := mkValue CValue (Some "p"%string) in
  let q := mkValue CValue (Some "q"%string) in
  let i := mkInstruction 0 AddInstruction (Some "s"%string) [p; q] in
  from_instruction i = None
  ∧ from_instruction_spec i = Some (mkExpression "add" ["p"; "q"]%string).
Proof. split; by vm_compute. Qed.

(** C6, amended: [from_instruction] returns an expression exactly when
    the instruction has at least two operands, its class is one of
    [AddInstruction], [MulInstruction], [AssignInstruction], and every
    operand is an instruction with a non-empty name (token: the name) or
    a constant (token: [const_<value>]); the expression is the tag of the
    class with the tokens in sorted order.  Any other operand, named or
    not, makes the result none. *)
Theorem from_instruction_iff i e :
  (from_instruction i = Some e ↔
     2 ≤ length (operands i)
     ∧ Forall (λ o, is_Some (token o)) (operands i)
     ∧ ∃ op, OPERATOR_MAP (cls i) = Some op
             ∧ e = mkExpression op (sorted (omap token (operands i))))
  ∧ sorted (omap token (operands i)) ≡ₚ omap token (operands i)
  ∧ Sorted (λ a b, String.leb a b = true) (sorted (omap token (operands i))).
Proof.
  split_and!; [|apply sorted_Permutation|apply sorted_Sorted].
  unfold from_instruction. rewrite operand_names_loop_tokens. simpl.
  destruct (decide (length (operands i) ≤ 1)) as [Hlen|Hlen].
  { split; [done|]. intros (? & _). lia. }
  destruct (OPERATOR_MAP (cls i)) as [op|] eqn:Hop.
  2:{ split; [done|]. by intros (_ & _ & ? & ? & _). }
  destruct (decide (Forall _ (operands i))) as [Hf|Hf].
  2:{ split; [done|]. by intros (_ & ? & _). }
  pose proof (length_omap_token _ Hf) as Hl.
  destruct (omap token (operands i)) as [|t ts] eqn:Hts.
  { simpl in Hl. lia. }
  split.
  - intros [= <-]. split_and!; [lia|done|]. by exists op.
  - intros (_ & _ & op' & [= <-] & ->). done.
Qed.

End ExpressionFacts.

Module EngineFacts.
Import IR ControlFlow DataFlow.

(** A relation whose steps decrease a triple of numbers in the
    lexicographic order, on the states of an invariant, has no infinite
    path from them. *)
Lemma sn_lexicographic {S : Type} (R : relation S) (Inv : S → Prop) (m1 m2 m3 : S → nat) :
  (∀ s s', Inv s → R s s' →
     Inv s' ∧ (m1 s' < m1 s
               ∨ (m1 s' ≤ m1 s ∧ m2 s' < m2 s)
               ∨ (m1 s' ≤ m1 s ∧ m2 s' ≤ m2 s ∧ m3 s' < m3 s))) →
  ∀ s, Inv s → sn R s.
Proof.
  intros Hstep.
  assert (∀ a b c s, m1 s ≤ a → m2 s ≤ b → m3 s ≤ c → Inv s → sn R s) as Hgen.
  { induction a as [a IHa] using lt_wf_ind.
    induction b as [b IHb] using lt_wf_ind.
    induction c as [c IHc] using lt_wf_ind.
    intros s H1 H2 H3 Hs. constructor. intros s' Hss'. unfold flip in Hss'.
    destruct (Hstep s s' Hs Hss') as [Hs' [Hlt|[[Hle Hlt]|(Hle1 & Hle2 & Hlt)]]].
    - apply (IHa (m1 s') ltac:(lia) (m2 s') (m3 s')); done.
    - apply (IHb (m2 s') ltac:(lia) (m3 s')); [lia|done|done|done].
    - apply (IHc (m3 s') ltac:(lia)); [lia|lia|done|done]. }
  intros s Hs. by apply (Hgen (m1 s) (m2 s) (m3 s)).
Qed.

(** The sets of a graph that was built mention nodes of the graph only. *)
Definition closed (ns : gmap bid CFGNode) : Prop :=
  ∀ n nd, ns !! n = Some nd → successors nd ⊆ dom ns ∧ predecessors nd ⊆ dom ns.

Lemma closed_create_nodes bs : closed (create_nodes bs).
Proof.
  unfold create_nodes. induction bs as [|b bs IH] using rev_ind.
  - simpl. intros n nd H. by rewrite lookup_empty in H.
  - rewrite foldl_app. simpl. intros n nd.
    destruct (decide (n = b)) as [->|Hn].
    + rewrite lookup_insert_eq. intros [= <-]. simpl. set_solver.
    + rewrite lookup_insert_ne by done. intros H. apply IH in H.
      rewrite dom_insert_L. set_solver.
Qed.

Lemma closed_link b ns s ns' : closed ns → link b (Ok ns) s = Ok ns' → closed ns'.
Proof.
  intros Hc. unfold link. destruct (ns !! s) as [sn|] eqn:Hs; [|done].
  intros [= <-]. intros n nd.
  assert (Hsd : s ∈ dom ns) by (apply elem_of_dom; eauto).
  rewrite !dom_insert_L.
  assert (Hb : successors (ns !!! b) ⊆ dom ns ∧ predecessors (ns !!! b) ⊆ dom ns).
  { rewrite lookup_total_alt. destruct (ns !! b) as [bn|] eqn:Hbn; simpl.
    - by apply (Hc b).
    - set_solver. }
  destruct (decide (n = s)) as [->|Hns].
  - rewrite lookup_insert_eq. intros [= <-]. simpl.
    destruct (decide (b = s)) as [->|Hbs].
    + rewrite lookup_total_insert_eq. simpl. set_solver.
    + rewrite lookup_total_insert_ne by done. rewrite lookup_total_alt, Hs. simpl.
      apply Hc in Hs. set_solver.
  - rewrite lookup_insert_ne by done.
    destruct (decide (n = b)) as [->|Hnb].
    + rewrite lookup_insert_eq. intros [= <-]. simpl. set_solver.
    + rewrite lookup_insert_ne by done. intros H. apply Hc in H. set_solver.
Qed.

Lemma foldl_link_Raise b e ss : foldl (link b) (Raise e) ss = Raise e.
Proof. induction ss as [|s ss IH]; [done|]. cbn [foldl]. apply IH. Qed.

Lemma closed_foldl_link b ss ns ns' :
  closed ns → foldl (link b) (Ok ns) ss = Ok ns' → closed ns'.
Proof.
  revert ns. induction ss as [|s ss IH]; intros ns Hc; cbn [foldl].
  - by intros [= <-].
  - destruct (link b (Ok ns) s) as [ns1|e] eqn:Hl.
    + apply IH. by eapply closed_link.
    + by rewrite foldl_link_Raise.
Qed.

Lemma closed_link_nodes f ns ns' : closed ns → link_nodes f ns = Ok ns' → closed ns'.
Proof.
  unfold link_nodes. generalize (blocks f). intros bs. revert ns.
  induction bs as [|b bs IH]; intros ns Hc; cbn [foldl].
  - by intros [= <-].
  - destruct (foldl (link b) (Ok ns) (elements (IR.successors (block_store f !!! b))))
      as [ns1|e] eqn:Hl.
    + apply IH. by eapply closed_foldl_link.
    + intros H. exfalso. clear -H.
      induction bs as [|b' bs IH']; cbn [foldl] in H; [done|].
      rewrite foldl_link_Raise in H. auto.
Qed.

Lemma build_cfg_closed f cfg : build_cfg f = Ok cfg → closed (nodes cfg).
Proof.
  unfold build_cfg. destruct (link_nodes f (create_nodes (blocks f))) as [ns|e] eqn:Hl; [|done].
  intros [= <-]. simpl. eapply closed_link_nodes; [|done]. apply closed_create_nodes.
Qed.

Lemma closed_successors ns n : closed ns → successors (ns !!! n) ⊆ dom ns.
Proof.
  intros Hc. rewrite lookup_total_alt. destruct (ns !! n) as [nd|] eqn:Hn; simpl.
  - by apply (Hc n).
  - set_solver.
Qed.

Lemma closed_predecessors ns n : closed ns → predecessors (ns !!! n) ⊆ dom ns.
Proof.
  intros Hc. rewrite lookup_total_alt. destruct (ns !! n) as [nd|] eqn:Hn; simpl.
  - by apply (Hc n).
  - set_solver.
Qed.

Section engine_facts.
Context {Data Aux : Type} `{EqDecision Data}.
Variable A : Analysis Data Aux.
Variable cfg : ControlFlowGraph.
Hypothesis cfg_closed : closed (nodes cfg).

(** Every node has its two entries, and only nodes are queued. *)
Record defined (s : state Data Aux) : Prop := mkDefined {
  defined_in : dom (in_sets s) = get_nodes cfg;
  defined_out : dom (out_sets s) = get_nodes cfg;
  defined_worklist : worklist s ⊆ get_nodes cfg
}.

Lemma defined_initialize : defined (initialize A cfg).
Proof. split; simpl; by rewrite ?dom_gset_to_gmap. Qed.

Lemma defined_step s s' : defined s → step A cfg s s' → defined s'.
Proof.
  intros [Hi Ho Hw] (node & Hnode & ->).
  assert (Hn : node ∈ get_nodes cfg) by set_solver.
  pose proof (closed_successors _ node cfg_closed).
  pose proof (closed_predecessors _ node cfg_closed).
  unfold process, get_nodes in *. destruct (is_forward A); simpl.
  - split; simpl; rewrite ?dom_insert_L; [set_solver|set_solver|].
    case_decide; set_solver.
  - split; simpl; rewrite ?dom_insert_L; [set_solver|set_solver|].
    case_decide; set_solver.
Qed.

Lemma defined_rtc s s' : defined s → rtc (step A cfg) s s' → defined s'.
Proof. intros Hs Hrtc. induction Hrtc; [done|]. eauto using defined_step. Qed.

(** The loop goes on exactly while the worklist is not empty. *)
Lemma red_step s : red (step A cfg) s ↔ worklist s ≠ ∅.
Proof.
  split.
  - intros (s' & node & Hnode & _). set_solver.
  - intros Hne. apply set_choose_L in Hne as [node Hnode].
    eexists. exists node. eauto.
Qed.

#[local] Instance red_step_dec s : Decision (red (step A cfg) s).
Proof.
  refine (cast_if (decide (worklist s ≠ ∅))); by rewrite red_step.
Defined.

(** [analyze] completes: no run of the loop is infinite, the states it
    goes through have both entries of every node, and a state with an
    empty worklist is reached. *)
Definition completes : Prop :=
  sn (step A cfg) (initialize A cfg)
  ∧ (∀ s, rtc (step A cfg) (initialize A cfg) s → defined s)
  ∧ (∃ s, rtc (step A cfg) (initialize A cfg) s ∧ worklist s = ∅).

Lemma completes_of_sn : sn (step A cfg) (initialize A cfg) → completes.
Proof.
  intros Hsn. split_and!; [done| |].
  - intros s. apply defined_rtc, defined_initialize.
  - destruct (sn_wn (R:=step A cfg) _ Hsn) as (s & Hrtc & Hnf).
    exists s. split; [done|]. unfold nf in Hnf. rewrite red_step in Hnf.
    destruct (decide (worklist s = ∅)); [done|contradiction].
Qed.
End engine_facts.

End EngineFacts.

Module Ascending.
Import IR ControlFlow DataFlow EngineFacts.

Lemma sum_list_with_ext_in {B} (f g : B → nat) l :
  (∀ x, x ∈ l → f x = g x) → sum_list_with f l = sum_list_with g l.
Proof.
  induction l as [|x l IH]; intros Hfg; simpl; [done|].
  rewrite Hfg, IH; [done| |]; set_solver.
Qed.

Lemma sum_list_with_lt_at {B} (f g : B → nat) l n :
  NoDup l → n ∈ l → (∀ m, m ∈ l → m ≠ n → g m = f m) → g n < f n →
  sum_list_with g l < sum_list_with f l.
Proof.
  induction 1 as [|x l Hx Hnd IH]; intros Hn Hother Hlt; [by apply elem_of_nil in Hn|].
  simpl. apply elem_of_cons in Hn as [->|Hn].
  - rewrite (sum_list_with_ext_in g f l); [lia|].
    intros m Hm. apply Hother; set_solver.
  - rewrite (Hother x); [|set_solver|set_solver].
    enough (sum_list_with g l < sum_list_with f l) by lia.
    apply IH; [done| |done]. intros m Hm Hne. apply Hother; set_solver.
Qed.

(** Analyses whose entries only grow: the transfer of a node (meet, then
    flow) is monotone for an order of which the initial datum is the
    least element, and a number bounded on the data the analysis builds
    grows with every strict increase. *)
Section ascending.
Context {Data : Type} `{EqDecision Data}.
Variable A : Analysis Data unit.
Variable cfg : ControlFlowGraph.
Hypothesis cfg_closed : closed (nodes cfg).

Variable le : relation Data.
Variable rank : Data → nat.
Variable bound : nat.
Variable good : Data → Prop.

(** The sets the loop compares: [out_sets] forwards, [in_sets]
    backwards; the neighbours whose sets are met. *)
Definition primary (s : state Data unit) : gmap nid Data :=
  if is_forward A then out_sets s else in_sets s.
Definition met (n : nid) : gset nid :=
  if is_forward A then predecessors (nodes cfg !!! n) else successors (nodes cfg !!! n).
Definition dependents (n : nid) : gset nid :=
  if is_forward A then successors (nodes cfg !!! n) else predecessors (nodes cfg !!! n).
Definition via (n : nid) (ds : list Data) : Data :=
  (flow_function A cfg tt n (meet_operator A cfg tt ds)).1.
Definition transfer (X : gmap nid Data) (n : nid) : Data :=
  via n (neighbor_sets A X (met n)).

Hypothesis le_preorder : PreOrder le.
Hypothesis init_bottom : ∀ d, le (initial_data A) d.
Hypothesis init_good : good (initial_data A).
Hypothesis via_mono : ∀ n ds ds',
  n ∈ get_nodes cfg → Forall2 le ds ds' → le (via n ds) (via n ds').
Hypothesis via_good : ∀ n ds, n ∈ get_nodes cfg → Forall good ds → good (via n ds).
Hypothesis rank_strict : ∀ d d', good d → good d' → le d d' → d ≠ d' → rank d < rank d'.
Hypothesis rank_bound : ∀ d, good d → rank d ≤ bound.

Lemma primary_process s node :
  primary (process A cfg s node) = <[node := transfer (primary s) node]> (primary s).
Proof.
  unfold primary, process, transfer, via, met. destruct (aux s).
  by destruct (is_forward A).
Qed.

Lemma worklist_process s node :
  worklist (process A cfg s node) =
  if decide (transfer (primary s) node = entry A (primary s) node) then worklist s
  else worklist s ∪ dependents node.
Proof.
  unfold primary, process, transfer, via, met, dependents. destruct (aux s).
  by destruct (is_forward A).
Qed.

Lemma entry_insert (X : gmap nid Data) n d m :
  entry A (<[n := d]> X) m = if decide (m = n) then d else entry A X m.
Proof.
  unfold entry. case_decide as Hm.
  - subst. by rewrite lookup_insert_eq.
  - by rewrite lookup_insert_ne.
Qed.

Lemma neighbor_sets_mono (X X' : gmap nid Data) N :
  (∀ n, le (entry A X n) (entry A X' n)) →
  Forall2 le (neighbor_sets A X N) (neighbor_sets A X' N).
Proof.
  intros HX. unfold neighbor_sets. case_decide.
  - by repeat constructor.
  - apply Forall2_fmap, Forall_Forall2_diag, Forall_forall. auto.
Qed.

Lemma neighbor_sets_good (X : gmap nid Data) N :
  (∀ n, good (entry A X n)) → Forall good (neighbor_sets A X N).
Proof.
  intros HX. unfold neighbor_sets. case_decide.
  - by repeat constructor.
  - apply Forall_fmap, Forall_forall. intros n _. apply HX.
Qed.

Record ascending (s : state Data unit) : Prop := mkAscending {
  asc_defined : defined cfg s;
  asc_good : ∀ n, good (entry A (primary s) n);
  asc_below : ∀ n, n ∈ get_nodes cfg → le (entry A (primary s) n) (transfer (primary s) n)
}.

(** The distance of the entries from the bound. *)
Definition slack (s : state Data unit) : nat :=
  sum_list_with (λ n, bound - rank (entry A (primary s) n)) (elements (get_nodes cfg)).

Lemma ascending_initialize : ascending (initialize A cfg).
Proof.
  assert (Hentry : ∀ n, entry A (primary (initialize A cfg)) n = initial_data A).
  { intros n. unfold primary, entry, initialize. destruct (is_forward A); simpl.
    all: rewrite lookup_gset_to_gmap; by destruct (guard _). }
  split.
  - apply defined_initialize.
  - intros n. by rewrite Hentry.
  - intros n _. rewrite Hentry. apply init_bottom.
Qed.

Lemma ascending_step s s' :
  ascending s → step A cfg s s' →
  ascending s' ∧ (slack s' < slack s
                  ∨ (slack s' ≤ slack s ∧ size (worklist s') < size (worklist s))).
Proof.
  intros [Hdef Hgood Hbelow] Hstep.
  pose proof (defined_step A cfg cfg_closed s s' Hdef Hstep) as Hdef'.
  destruct Hstep as (node & Hnode & ->).
  assert (Hprim : primary (pop s node) = primary s).
  { unfold primary, pop. by destruct (is_forward A). }
  set (new := transfer (primary s) node).
  assert (Hp' : primary (process A cfg (pop s node) node) = <[node := new]> (primary s)).
  { by rewrite primary_process, Hprim. }
  assert (Hin : node ∈ get_nodes cfg) by (by apply (defined_worklist _ _ Hdef)).
  assert (Hnew_good : good new).
  { apply via_good, neighbor_sets_good, Hgood. done. }
  assert (Hle : ∀ n, le (entry A (primary s) n) (entry A (<[node := new]> (primary s)) n)).
  { intros n. rewrite entry_insert. case_decide; [subst; by apply Hbelow|reflexivity]. }
  split.
  - split; [done| |].
    + intros n. rewrite Hp', entry_insert. case_decide; [done|apply Hgood].
    + intros n Hn. rewrite Hp'. etrans; [|by apply via_mono, neighbor_sets_mono, Hle].
      rewrite entry_insert. case_decide; [subst; reflexivity|by apply Hbelow].
  - unfold slack. rewrite Hp'.
    destruct (decide (new = entry A (primary s) node)) as [Heq|Hne].
    + right. split.
      * apply Nat.eq_le_incl, sum_list_with_ext_in. intros n _.
        rewrite entry_insert. case_decide; [subst n; by rewrite Heq|done].
      * rewrite worklist_process, Hprim. fold new. rewrite decide_True by done.
        simpl. apply subset_size. set_solver.
    + left. apply (sum_list_with_lt_at _ _ _ node).
      * apply NoDup_elements.
      * by apply elem_of_elements.
      * intros m _ Hm. by rewrite entry_insert, decide_False.
      * rewrite entry_insert, decide_True by done.
        pose proof (rank_strict _ _ (Hgood node) Hnew_good (Hbelow node Hin) (not_eq_sym Hne)).
        pose proof (rank_bound _ Hnew_good). fold new in H0. lia.
Qed.

Lemma ascending_sn : sn (step A cfg) (initialize A cfg).
Proof.
  apply (sn_lexicographic (step A cfg) ascending (λ _, 0) slack (λ s, size (worklist s))).
  - intros s s' Hs Hstep. destruct (ascending_step s s' Hs Hstep) as [Hs' Hdec].
    split; [done|]. right. destruct Hdec as [?|[? ?]]; [left|right]; lia.
  - apply ascending_initialize.
Qed.
End ascending.

End Ascending.

Module UnionAnalyses.
Import IR ControlFlow DataFlow EngineFacts Ascending.

Section pyset.
Context `{Countable T}.

(** The empty dict comes first, sets are ordered by inclusion. *)
Definition pyset_le (d d' : pyset T) : Prop :=
  match d, d' with
  | EmptyDict, _ => True
  | PySet s, PySet s' => s ⊆ s'
  | PySet _, EmptyDict => False
  end.

Definition pyset_rank (d : pyset T) : nat :=
  match d with
  | EmptyDict => 0
  | PySet s => S (size s)
  end.

#[global] Instance pyset_le_preorder : PreOrder pyset_le.
Proof.
  split.
  - intros [|s]; simpl; [done|set_solver].
  - intros [|s1] [|s2] [|s3]; simpl; try done. set_solver.
Qed.

Lemma pyset_le_contents d d' : pyset_le d d' → contents d ⊆ contents d'.
Proof. destruct d, d'; simpl; set_solver. Qed.

Lemma pyset_rank_strict d d' :
  pyset_le d d' → d ≠ d' → pyset_rank d < pyset_rank d'.
Proof.
  destruct d as [|s], d' as [|s']; simpl; try done; [lia|].
  intros Hsub Hne. apply ->Nat.succ_lt_mono. apply subset_size.
  split; [done|]. intros Hsub'. apply Hne. f_equal. set_solver.
Qed.

Lemma pyset_rank_bound (U : gset T) d : contents d ⊆ U → pyset_rank d ≤ S (size U).
Proof.
  destruct d as [|s]; simpl; [lia|]. intros Hs.
  apply le_n_S. by apply subseteq_size.
Qed.

Lemma elem_of_union_fold (acc : gset T) (sets : list (pyset T)) x :
  x ∈ foldl (λ result data_set, result ∪ contents data_set) acc sets
  ↔ x ∈ acc ∨ ∃ d, d ∈ sets ∧ x ∈ contents d.
Proof.
  revert acc. induction sets as [|d sets IH]; intros acc; simpl.
  - split; [by left|]. intros [?|(d & Hd & _)]; [done|]. by apply elem_of_nil in Hd.
  - rewrite IH. split.
    + intros [[?|?]%elem_of_union|(d' & Hd' & Hx)].
      * by left.
      * right. exists d. split; [left|done].
      * right. exists d'. split; [by right|done].
    + intros [?|(d' & Hd' & Hx)]; [left; set_solver|].
      apply elem_of_cons in Hd' as [->|Hd']; [left; set_solver|].
      right. by exists d'.
Qed.

(** The union meet: what it yields and that the order of the neighbour
    sets is immaterial. *)
Lemma elem_of_union_meet (sets : list (pyset T)) x :
  x ∈ contents (union_meet sets) ↔ ∃ d, d ∈ sets ∧ x ∈ contents d.
Proof. unfold union_meet. simpl. rewrite elem_of_union_fold. set_solver. Qed.

Lemma union_meet_Permutation (sets sets' : list (pyset T)) :
  sets ≡ₚ sets' → union_meet sets = union_meet sets'.
Proof.
  intros Hp. unfold union_meet. f_equal. apply set_eq. intros x.
  rewrite !elem_of_union_fold. by setoid_rewrite Hp.
Qed.

Lemma union_meet_mono (ds ds' : list (pyset T)) :
  Forall2 pyset_le ds ds' → contents (union_meet ds) ⊆ contents (union_meet ds').
Proof.
  intros Hf x. rewrite !elem_of_union_meet. intros (d & Hd & Hx).
  apply list_elem_of_lookup in Hd as [i Hi].
  destruct (Forall2_lookup_l _ _ _ _ _ Hf Hi) as (d' & Hi' & Hle).
  exists d'. split; [by eapply list_elem_of_lookup_2|]. by apply pyset_le_contents in Hle; apply Hle.
Qed.

Lemma union_meet_good (U : gset T) (ds : list (pyset T)) :
  Forall (λ d, contents d ⊆ U) ds → contents (union_meet ds) ⊆ U.
Proof.
  intros Hf x. rewrite elem_of_union_meet. intros (d & Hd & Hx).
  rewrite Forall_forall in Hf. by apply (Hf d Hd).
Qed.
End pyset.

(** *** Reaching definitions *)

Lemma rd_kill_gen_spec instrs out_set d :
  (d ∈ (rd_kill_gen instrs out_set).1
     ↔ d ∈ out_set ∧ ∃ i, i ∈ instrs ∧ truthy (name i) = Some d.1)
  ∧ (d ∈ (rd_kill_gen instrs out_set).2
     ↔ ∃ i, i ∈ instrs ∧ truthy (name i) = Some d.1 ∧ d.2 = ident i).
Proof.
  unfold rd_kill_gen.
  induction instrs as [|i instrs IH] using rev_ind.
  - simpl. split; (split; [set_solver|]).
    + intros (_ & i & Hi & _). by apply elem_of_nil in Hi.
    + intros (i & Hi & _). by apply elem_of_nil in Hi.
  - rewrite foldl_app. simpl. destruct IH as [IHk IHg].
    destruct (truthy (name i)) as [var|] eqn:Hvar; simpl.
    + split.
      * rewrite elem_of_union, IHk, elem_of_filter. split.
        -- intros [(Hd & j & Hj & Hn)|[Hd1 Hd]].
           ++ split; [done|]. exists j. split; [set_solver|done].
           ++ split; [done|]. exists i. split; [set_solver|]. by rewrite Hvar, Hd1.
        -- intros (Hd & j & Hj & Hn). apply elem_of_app in Hj as [Hj|Hj].
           ++ left. eauto.
           ++ apply list_elem_of_singleton in Hj as ->. right. split; [congruence|done].
      * rewrite elem_of_union, IHg, elem_of_singleton. split.
        -- intros [(j & Hj & Hn & Hid)| ->].
           ++ exists j. split; [set_solver|done].
           ++ exists i. split; [set_solver|done].
        -- intros (j & Hj & Hn & Hid). apply elem_of_app in Hj as [Hj|Hj].
           ++ left. eauto.
           ++ apply list_elem_of_singleton in Hj as ->. right.
              destruct d as [d1 d2]. simpl in *. congruence.
    + split.
      * rewrite IHk. split.
        -- intros (Hd & j & Hj & Hn). split; [done|]. exists j. split; [set_solver|done].
        -- intros (Hd & j & Hj & Hn). split; [done|]. apply elem_of_app in Hj as [Hj|Hj].
           ++ eauto.
           ++ apply list_elem_of_singleton in Hj as ->. congruence.
      * rewrite IHg. split.
        -- intros (j & Hj & Hn). exists j. split; [set_solver|done].
        -- intros (j & Hj & Hn & Hid). apply elem_of_app in Hj as [Hj|Hj].
           ++ eauto.
           ++ apply list_elem_of_singleton in Hj as ->. congruence.
Qed.

(** Every definition of the function: the bound of the analysis. *)
Definition all_definitions (cfg : ControlFlowGraph) : gset (string * oid) :=
  ⋃ ((λ n, (rd_kill_gen (node_instructions cfg n) ∅).2) <$> elements (get_nodes cfg)).

Lemma rd_gen_all_definitions cfg n out_set :
  n ∈ get_nodes cfg →
  (rd_kill_gen (node_instructions cfg n) out_set).2 ⊆ all_definitions cfg.
Proof.
  intros Hn d Hd. unfold all_definitions. apply elem_of_union_list.
  exists ((rd_kill_gen (node_instructions cfg n) ∅).2). split.
  - apply list_elem_of_fmap. exists n. split; [done|]. by apply elem_of_elements.
  - apply rd_kill_gen_spec. by apply rd_kill_gen_spec in Hd.
Qed.

Lemma ReachingDefinitions_sn cfg :
  closed (nodes cfg) →
  sn (step ReachingDefinitionsAnalysis cfg) (initialize ReachingDefinitionsAnalysis cfg).
Proof.
  intros Hc.
  apply (ascending_sn ReachingDefinitionsAnalysis cfg Hc pyset_le pyset_rank
           (S (size (all_definitions cfg))) (λ d, contents d ⊆ all_definitions cfg)).
  - apply _.
  - by intros d.
  - simpl. set_solver.
  - intros n ds ds' Hn Hf. unfold via. simpl.
    pose proof (union_meet_mono ds ds' Hf) as Hm.
    intros d. rewrite !elem_of_union, !elem_of_difference.
    destruct (rd_kill_gen_spec (node_instructions cfg n) (contents (union_meet ds)) d) as [Hk Hg].
    destruct (rd_kill_gen_spec (node_instructions cfg n) (contents (union_meet ds')) d) as [Hk' Hg'].
    rewrite Hk, Hg, Hk', Hg'. intros [[Hd Hnk]|?]; [|by right].
    left. split; [by apply Hm|]. intros [_ Hi]. apply Hnk. by split.
  - intros n ds Hn Hf. unfold via. simpl.
    pose proof (union_meet_good _ ds Hf) as Hm.
    pose proof (rd_gen_all_definitions cfg n (contents (union_meet ds)) Hn).
    set_solver.
  - intros d d' _ _. apply pyset_rank_strict.
  - intros d. apply pyset_rank_bound.
Qed.

(** *** Live variables *)

(** The loop of the flow function from a set, for a list of instructions
    already reversed. *)
Definition lv_fold (in_set : gset string) (instrs : list Instruction) : gset string :=
  foldl (λ in_set i,
           (match truthy (name i) with
            | Some var_def => in_set ∖ {[var_def]}
            | None => in_set
            end) ∪ get_used_variables i) in_set instrs.

Lemma lv_fold_mono c c' instrs : c ⊆ c' → lv_fold c instrs ⊆ lv_fold c' instrs.
Proof.
  revert c c'. unfold lv_fold. induction instrs as [|i instrs IH]; intros c c' Hc; simpl; [done|].
  apply IH. destruct (truthy (name i)); set_solver.
Qed.

Lemma lv_fold_sub c instrs :
  lv_fold c instrs ⊆ c ∪ ⋃ (get_used_variables <$> instrs).
Proof.
  revert c. unfold lv_fold. induction instrs as [|i instrs IH]; intros c; simpl; [set_solver|].
  etrans; [apply IH|]. destruct (truthy (name i)); set_solver.
Qed.

(** Every variable an instruction of the function uses. *)
Definition all_used (cfg : ControlFlowGraph) : gset string :=
  ⋃ ((λ n, ⋃ (get_used_variables <$> reverse (node_instructions cfg n)))
       <$> elements (get_nodes cfg)).

Lemma LiveVariable_sn cfg :
  closed (nodes cfg) →
  sn (step LiveVariableAnalysis cfg) (initialize LiveVariableAnalysis cfg).
Proof.
  intros Hc.
  apply (ascending_sn LiveVariableAnalysis cfg Hc pyset_le pyset_rank
           (S (size (all_used cfg))) (λ d, contents d ⊆ all_used cfg)).
  - apply _.
  - by intros d.
  - simpl. set_solver.
  - intros n ds ds' Hn Hf. unfold via. simpl.
    apply lv_fold_mono, union_meet_mono, Hf.
  - intros n ds Hn Hf. unfold via. simpl.
    etrans; [apply lv_fold_sub|].
    pose proof (union_meet_good _ ds Hf) as Hm.
    assert (⋃ (get_used_variables <$> reverse (node_instructions cfg n)) ⊆ all_used cfg).
    { intros x Hx. unfold all_used. apply elem_of_union_list. eexists. split; [|exact Hx].
      apply list_elem_of_fmap. exists n. split; [done|]. by apply elem_of_elements. }
    set_solver.
  - intros d d' _ _. apply pyset_rank_strict.
  - intros d. apply pyset_rank_bound.
Qed.

End UnionAnalyses.

Module ConstantPropagationFacts.
Import IR ControlFlow DataFlow EngineFacts Ascending.

(** Absent comes first, then TOP, then CONST. *)
Definition level (o : option status) : nat :=
  match o with
  | None => 0
  | Some TOP => 1
  | Some CONST => 2
  end.

Definition cp_le (m m' : gmap string status) : Prop :=
  ∀ k, level (m !! k) ≤ level (m' !! k).

Definition consts (m : gmap string status) : gset string :=
  dom (filter (λ kv, kv.2 = CONST) m).

Definition cp_rank (m : gmap string status) : nat := size (dom m) + size (consts m).

#[global] Instance cp_le_preorder : PreOrder cp_le.
Proof.
  split.
  - intros m k. lia.
  - intros m1 m2 m3 H12 H23 k. specialize (H12 k). specialize (H23 k). lia.
Qed.

Lemma elem_of_consts m k : k ∈ consts m ↔ m !! k = Some CONST.
Proof.
  unfold consts. rewrite elem_of_dom. unfold is_Some.
  setoid_rewrite map_lookup_filter_Some. simpl. split.
  - intros (v & Hv & ->). done.
  - intros Hk. by exists CONST.
Qed.

Lemma level_dom (m : gmap string status) k : k ∈ dom m ↔ 1 ≤ level (m !! k).
Proof.
  rewrite elem_of_dom. destruct (m !! k) as [[]|]; simpl; split; try lia; eauto.
  intros [? ?]. done.
Qed.

Lemma level_consts (m : gmap string status) k : k ∈ consts m ↔ 2 ≤ level (m !! k).
Proof.
  rewrite elem_of_consts. destruct (m !! k) as [[]|]; simpl; split; try lia; done.
Qed.

Lemma cp_rank_strict m m' : cp_le m m' → m ≠ m' → cp_rank m < cp_rank m'.
Proof.
  intros Hle Hne. unfold cp_rank.
  assert (Hd : dom m ⊆ dom m').
  { intros k. rewrite !level_dom. specialize (Hle k). lia. }
  assert (Hc : consts m ⊆ consts m').
  { intros k. rewrite !level_consts. specialize (Hle k). lia. }
  pose proof (subseteq_size _ _ Hd). pose proof (subseteq_size _ _ Hc).
  destruct (decide (dom m = dom m')) as [Hdeq|Hdne].
  - destruct (decide (consts m = consts m')) as [Hceq|Hcne].
    + exfalso. apply Hne. apply map_eq. intros k.
      assert (H1 : 1 ≤ level (m !! k) ↔ 1 ≤ level (m' !! k)) by (by rewrite <-!level_dom, Hdeq).
      assert (H2 : 2 ≤ level (m !! k) ↔ 2 ≤ level (m' !! k)) by (by rewrite <-!level_consts, Hceq).
      destruct (m !! k) as [[]|], (m' !! k) as [[]|]; simpl in *; try done; lia.
    + enough (size (consts m) < size (consts m')) by lia.
      apply subset_size. split; [done|]. intros ?. apply Hcne. set_solver.
  - enough (size (dom m) < size (dom m')) by lia.
    apply subset_size. split; [done|]. intros ?. apply Hdne. set_solver.
Qed.

Lemma cp_rank_bound (U : gset string) m : dom m ⊆ U → cp_rank m ≤ 2 * size U.
Proof.
  intros Hd. unfold cp_rank.
  assert (Hc : consts m ⊆ U).
  { intros k Hk. apply Hd. apply level_dom. apply level_consts in Hk. lia. }
  pose proof (subseteq_size _ _ Hd). pose proof (subseteq_size _ _ Hc). lia.
Qed.

(** **** The meet *)

Lemma lookup_cp_meet_operator sets k :
  cp_meet_operator sets !! k =
  if decide (k ∈ ⋃ (dom <$> sets)) then Some (cp_meet_value sets k) else None.
Proof.
  destruct sets as [|s sets].
  - simpl. rewrite lookup_empty. by rewrite decide_False by set_solver.
  - unfold cp_meet_operator. rewrite map_lookup_imap, lookup_gset_to_gmap.
    case_decide as Hk.
    + by rewrite option_guard_True.
    + by rewrite option_guard_False.
Qed.

Lemma cp_meet_value_CONST sets k :
  cp_meet_value sets k = CONST ↔ sets ≠ [] ∧ Forall (λ s, s !! k = Some CONST) sets.
Proof.
  unfold cp_meet_value. destruct sets as [|s sets].
  - cbn [fmap list_fmap head default]. case_decide; (split; [done|]); by intros [? _].
  - cbn [fmap list_fmap head default].
    set (first := default TOP (s !! k)).
    case_decide as Hall.
    + split.
      * intros Hf. split; [done|]. rewrite Hf in Hall.
        apply Forall_cons in Hall as [_ Hall]. apply Forall_fmap in Hall.
        constructor.
        -- subst first. by destruct (s !! k) as [[]|].
        -- eapply Forall_impl; [exact Hall|].
           simpl. intros s' Hs'. by destruct (s' !! k) as [[]|].
      * intros [_ Hf]. inversion Hf as [|?? Hs _]; subst. subst first. by rewrite Hs.
    + split; [done|]. intros [_ Hf]. exfalso. apply Hall.
      inversion Hf as [|?? Hs Hrest]; subst. subst first. rewrite Hs. simpl.
      constructor; [done|]. apply Forall_fmap. eapply Forall_impl; [exact Hrest|].
      simpl. by intros s' ->.
Qed.

Lemma level_cp_meet sets k :
  level (cp_meet_operator sets !! k) =
  if decide (k ∈ ⋃ (dom <$> sets)) then
    if decide (Forall (λ s, s !! k = Some CONST) sets) then 2 else 1
  else 0.
Proof.
  rewrite lookup_cp_meet_operator. case_decide as Hk; [|done].
  assert (sets ≠ []) as Hne.
  { intros ->. set_solver. }
  pose proof (cp_meet_value_CONST sets k) as Hc.
  destruct (cp_meet_value sets k); simpl; case_decide as Hf; try done.
  - destruct Hc as [_ Hc]. by specialize (Hc (conj Hne Hf)).
  - destruct Hc as [Hc _]. by destruct (Hc eq_refl).
Qed.

Lemma elem_of_union_dom (sets : list (gmap string status)) k :
  k ∈ ⋃ (dom <$> sets) ↔ ∃ s, s ∈ sets ∧ 1 ≤ level (s !! k).
Proof.
  rewrite elem_of_union_list. split.
  - intros (X & HX & Hk). apply list_elem_of_fmap in HX as (s & -> & Hs).
    exists s. split; [done|]. by apply level_dom.
  - intros (s & Hs & Hk). exists (dom s). split; [|by apply level_dom].
    apply list_elem_of_fmap. eauto.
Qed.

(** The meet does not depend on the order of the neighbour maps. *)
Lemma cp_meet_operator_Permutation sets sets' :
  sets ≡ₚ sets' → cp_meet_operator sets = cp_meet_operator sets'.
Proof.
  intros Hp. apply map_eq. intros k. rewrite !lookup_cp_meet_operator.
  assert (k ∈ ⋃ (dom <$> sets) ↔ k ∈ ⋃ (dom <$> sets')) as Hiff.
  { rewrite !elem_of_union_dom. by setoid_rewrite Hp. }
  assert (cp_meet_value sets k = cp_meet_value sets' k) as ->.
  { pose proof (cp_meet_value_CONST sets k) as H1.
    pose proof (cp_meet_value_CONST sets' k) as H2.
    assert (sets ≠ [] ∧ Forall (λ s, s !! k = Some CONST) sets
            ↔ sets' ≠ [] ∧ Forall (λ s, s !! k = Some CONST) sets') as H3.
    { split; intros [Hne Hall]; split.
      - intros ->. apply Hne. by apply Permutation_nil_r.
      - by rewrite <-Hp.
      - intros ->. apply Hne. by apply Permutation_nil_r.
      - by rewrite Hp. }
    destruct (cp_meet_value sets k), (cp_meet_value sets' k); try done.
    - exfalso. assert (TOP = CONST) as Hc; [|done]. apply H1, H3, H2. done.
    - exfalso. assert (TOP = CONST) as Hc; [|done]. apply H2, H3, H1. done. }
  repeat case_decide; tauto.
Qed.

Lemma cp_meet_mono ds ds' :
  Forall2 cp_le ds ds' → cp_le (cp_meet_operator ds) (cp_meet_operator ds').
Proof.
  intros Hf k. rewrite !level_cp_meet.
  destruct (decide (k ∈ ⋃ (dom <$> ds))) as [Hk|Hk]; [|lia].
  assert (Hk' : k ∈ ⋃ (dom <$> ds')).
  { apply elem_of_union_dom in Hk as (s & Hs & Hl). apply elem_of_union_dom.
    apply list_elem_of_lookup in Hs as [i Hi].
    destruct (Forall2_lookup_l _ _ _ _ _ Hf Hi) as (s' & Hi' & Hle).
    exists s'. split; [by eapply list_elem_of_lookup_2|]. specialize (Hle k). lia. }
  rewrite (decide_True _ _ Hk').
  destruct (decide (Forall (λ s, s !! k = Some CONST) ds)) as [Hc|Hc]; [|case_decide; lia].
  rewrite decide_True; [done|].
  apply Forall_lookup. intros i s' Hi'.
  destruct (Forall2_lookup_r _ _ _ _ _ Hf Hi') as (s & Hi & Hle).
  rewrite Forall_lookup in Hc. specialize (Hc i s Hi). specialize (Hle k).
  rewrite Hc in Hle. simpl in Hle. by destruct (s' !! k) as [[]|]; simpl in *; try lia.
Qed.

Lemma dom_cp_meet (U : gset string) ds :
  Forall (λ d, dom d ⊆ U) ds → dom (cp_meet_operator ds) ⊆ U.
Proof.
  intros Hf k Hk. apply level_dom in Hk. rewrite level_cp_meet in Hk.
  case_decide as Hin; [|lia]. apply elem_of_union_dom in Hin as (s & Hs & Hl).
  rewrite Forall_forall in Hf. apply (Hf s Hs). by apply level_dom.
Qed.

(** **** The flow function *)

(** [out_set] starts as a copy of [in_set] and is only written at the
    names the block defines. *)
Definition covers (in_set : gmap string status) (st : gmap string status * gset string)
    : Prop :=
  (∀ k, is_Some (in_set !! k) → is_Some (st.1 !! k))
  ∧ (∀ k, k ∉ st.2 → st.1 !! k = in_set !! k).

Lemma operand_status_covered in_set st on :
  covers in_set st → operand_status st.1 in_set on = default TOP (st.1 !! on).
Proof.
  intros [Hc _]. unfold operand_status. destruct (st.1 !! on) as [v|] eqn:Ho; [done|].
  destruct (in_set !! on) as [v|] eqn:Hi; [|done].
  destruct (Hc on) as [v' Hv']; [by rewrite Hi|]. congruence.
Qed.

Lemma covers_insert in_set out_set defined n v :
  covers in_set (out_set, defined) → covers in_set (<[n := v]> out_set, {[n]} ∪ defined).
Proof.
  intros [H1 H2]. split; simpl in *.
  - intros k Hk. destruct (decide (k = n)) as [->|Hne].
    + rewrite lookup_insert_eq. eauto.
    + rewrite lookup_insert_ne by done. auto.
  - intros k Hk. rewrite lookup_insert_ne by set_solver. apply H2. set_solver.
Qed.

Lemma covers_define in_set out_set defined n :
  covers in_set (out_set, defined) → covers in_set (out_set, {[n]} ∪ defined).
Proof. intros [H1 H2]. split; simpl in *; [done|]. intros k Hk. apply H2. set_solver. Qed.

Lemma cp_instruction_covers in_set st i :
  covers in_set st → covers in_set (cp_instruction in_set st i).
Proof.
  intros Hc. destruct st as [out_set defined]. unfold cp_instruction.
  destruct (truthy (name i)) as [n|]; [|done]. cbn [fst snd].
  destruct (operands i) as [|o [|o' ops]].
  - by apply covers_insert.
  - destruct (v_class o); [by apply covers_define|by apply covers_insert|].
    destruct (truthy (v_name o)); [by apply covers_insert|by apply covers_define].
  - by apply covers_insert.
Qed.

Lemma foldl_cp_instruction_covers in_set st instrs :
  covers in_set st → covers in_set (foldl (cp_instruction in_set) st instrs).
Proof.
  revert st. induction instrs as [|i instrs IH]; intros st Hc; [done|].
  cbn [foldl]. by apply IH, cp_instruction_covers.
Qed.

Lemma covers_start in_set : covers in_set (in_set, ∅).
Proof. by split. Qed.

(** The final loop of the flow function changes nothing. *)
Lemma cp_preserve_noop in_set st :
  covers in_set st → filter (λ kv, kv.1 ∉ st.2) in_set ∪ st.1 = st.1.
Proof.
  intros [_ H2]. apply map_eq. intros k.
  destruct (filter (λ kv, kv.1 ∉ st.2) in_set !! k) as [v|] eqn:Hf.
  - rewrite (lookup_union_Some_l _ _ _ _ Hf).
    apply map_lookup_filter_Some in Hf as [Hin Hk]. simpl in Hk.
    by rewrite H2, Hin.
  - by rewrite lookup_union_r.
Qed.

Lemma cp_flow_function_fold cfg a node in_set :
  (cp_flow_function cfg a node in_set).1 =
  (foldl (cp_instruction in_set) (in_set, ∅) (node_instructions cfg node)).1.
Proof.
  unfold cp_flow_function. cbn [fst].
  apply cp_preserve_noop, foldl_cp_instruction_covers, covers_start.
Qed.

Lemma cp_le_insert out_set out_set' n v v' :
  cp_le out_set out_set' → level (Some v) ≤ level (Some v') →
  cp_le (<[n := v]> out_set) (<[n := v']> out_set').
Proof.
  intros Hle Hv k. destruct (decide (k = n)) as [->|Hne].
  - by rewrite !lookup_insert_eq.
  - rewrite !lookup_insert_ne by done. apply Hle.
Qed.

Lemma level_default_mono (o o' : option status) :
  level o ≤ level o' → level (Some (default TOP o)) ≤ level (Some (default TOP o')).
Proof. destruct o as [[]|], o' as [[]|]; simpl; lia. Qed.

Lemma all_const_mono in_set in_set' st st' ops :
  covers in_set st → covers in_set' st' → cp_le st.1 st'.1 →
  all_const st.1 in_set ops = true → all_const st'.1 in_set' ops = true.
Proof.
  intros Hc Hc' Hle. induction ops as [|o ops IH]; [done|]. cbn [all_const].
  destruct (v_class o); [done|done|].
  destruct (truthy (v_name o)) as [on|]; [|done].
  rewrite (operand_status_covered _ _ on Hc), (operand_status_covered _ _ on Hc').
  case_decide as H1; [|done]. intros Hrest.
  rewrite decide_True; [by apply IH|].
  pose proof (level_default_mono _ _ (Hle on)) as Hl. rewrite H1 in Hl.
  by destruct (default TOP (st'.1 !! on)); simpl in Hl; try lia.
Qed.

Lemma cp_instruction_mono in_set in_set' st st' i :
  covers in_set st → covers in_set' st' → cp_le st.1 st'.1 → st.2 = st'.2 →
  cp_le (cp_instruction in_set st i).1 (cp_instruction in_set' st' i).1
  ∧ (cp_instruction in_set st i).2 = (cp_instruction in_set' st' i).2.
Proof.
  intros Hc Hc' Hle Hd.
  pose proof (all_const_mono in_set in_set' st st' (operands i) Hc Hc' Hle) as Hall.
  pose proof (λ on, operand_status_covered in_set st on Hc) as Hos.
  pose proof (λ on, operand_status_covered in_set' st' on Hc') as Hos'.
  destruct st as [out_set defined], st' as [out_set' defined']. simpl in *. subst defined'.
  unfold cp_instruction. destruct (truthy (name i)) as [n|]; [|done]. cbn [fst snd].
  destruct (operands i) as [|o [|o' ops]].
  - split; [|done]. by apply cp_le_insert.
  - destruct (v_class o); [done|split; [|done]; by apply cp_le_insert|].
    destruct (truthy (v_name o)) as [on|]; [|done].
    split; [|done]. cbn [fst]. apply cp_le_insert; [done|].
    rewrite Hos, Hos'. apply level_default_mono, Hle.
  - split; [|done]. cbn [fst]. apply cp_le_insert; [done|].
    destruct (all_const out_set in_set _) eqn:Ha.
    + by rewrite Hall.
    + destruct (all_const out_set' in_set' _); simpl; lia.
Qed.

Lemma foldl_cp_instruction_mono in_set in_set' st st' instrs :
  covers in_set st → covers in_set' st' → cp_le st.1 st'.1 → st.2 = st'.2 →
  cp_le (foldl (cp_instruction in_set) st instrs).1
        (foldl (cp_instruction in_set') st' instrs).1.
Proof.
  revert st st'. induction instrs as [|i instrs IH]; intros st st' Hc Hc' Hle Hd; [done|].
  cbn [foldl].
  destruct (cp_instruction_mono in_set in_set' st st' i Hc Hc' Hle Hd) as [Hle1 Hd1].
  apply IH; [by apply cp_instruction_covers|by apply cp_instruction_covers|done|done].
Qed.

Lemma cp_flow_function_mono cfg node in_set in_set' :
  cp_le in_set in_set' →
  cp_le (cp_flow_function cfg () node in_set).1 (cp_flow_function cfg () node in_set').1.
Proof.
  intros Hle. rewrite !cp_flow_function_fold.
  apply foldl_cp_instruction_mono; [apply covers_start|apply covers_start|done|done].
Qed.

(** The names the instructions of a block define. *)
Definition defined_names (instrs : list Instruction) : gset string :=
  list_to_set (omap (λ i, truthy (name i)) instrs).

Lemma dom_cp_instruction in_set st i :
  dom (cp_instruction in_set st i).1 ⊆ dom st.1 ∪ defined_names [i].
Proof.
  destruct st as [out_set defined]. unfold cp_instruction, defined_names. simpl.
  destruct (truthy (name i)) as [n|]; [|set_solver]. cbn [fst snd].
  destruct (operands i) as [|o [|o' ops]]; cbn [fst].
  - rewrite dom_insert_L. set_solver.
  - destruct (v_class o); cbn [fst]; [set_solver|rewrite dom_insert_L; set_solver|].
    destruct (truthy (v_name o)); cbn [fst]; [rewrite dom_insert_L|]; set_solver.
  - rewrite dom_insert_L. set_solver.
Qed.

Lemma dom_foldl_cp_instruction in_set st instrs :
  dom (foldl (cp_instruction in_set) st instrs).1 ⊆ dom st.1 ∪ defined_names instrs.
Proof.
  revert st. induction instrs as [|i instrs IH]; intros st; [set_solver|].
  cbn [foldl]. etrans; [apply IH|].
  pose proof (dom_cp_instruction in_set st i) as Hi.
  unfold defined_names in *. simpl in *.
  destruct (truthy (name i)); set_solver.
Qed.

(** Every name an instruction of the function defines. *)
Definition all_names (cfg : ControlFlowGraph) : gset string :=
  ⋃ ((λ n, defined_names (node_instructions cfg n)) <$> elements (get_nodes cfg)).

Lemma ConstantPropagation_sn cfg :
  closed (nodes cfg) →
  sn (step ConstantPropagationAnalysis cfg) (initialize ConstantPropagationAnalysis cfg).
Proof.
  intros Hc.
  apply (ascending_sn ConstantPropagationAnalysis cfg Hc cp_le cp_rank
           (2 * size (all_names cfg)) (λ d, dom d ⊆ all_names cfg)).
  - apply _.
  - intros d k. simpl. rewrite lookup_empty. simpl. lia.
  - simpl. set_solver.
  - intros n ds ds' Hn Hf. unfold via. simpl.
    by apply cp_flow_function_mono, cp_meet_mono.
  - intros n ds Hn Hf. unfold via.
    cbn [flow_function meet_operator ConstantPropagationAnalysis].
    rewrite cp_flow_function_fold.
    etrans; [apply dom_foldl_cp_instruction|]. cbn [fst].
    pose proof (dom_cp_meet _ ds Hf).
    assert (defined_names (node_instructions cfg n) ⊆ all_names cfg).
    { intros x Hx. unfold all_names. apply elem_of_union_list. eexists. split; [|exact Hx].
      apply list_elem_of_fmap. exists n. split; [done|]. by apply elem_of_elements. }
    set_solver.
  - intros d d' _ _. apply cp_rank_strict.
  - intros d. apply cp_rank_bound.
Qed.

End ConstantPropagationFacts.

Module AvailableExpressionsFacts.
Import IR ControlFlow DataFlow EngineFacts Ascending.

(** The expressions a block computes. *)
Definition block_gen (instrs : list Instruction) : gset Expression :=
  add_expressions instrs ∅.

Lemma elem_of_add_expressions instrs out_set e :
  e ∈ add_expressions instrs out_set
  ↔ e ∈ out_set ∨ ∃ i, i ∈ instrs ∧ from_instruction i = Some e.
Proof.
  unfold add_expressions. revert out_set.
  induction instrs as [|i instrs IH]; intros out_set; cbn [foldl].
  - split; [by left|]. intros [?|(i & Hi & _)]; [done|]. by apply elem_of_nil in Hi.
  - rewrite IH. destruct (from_instruction i) as [e'|] eqn:Hi.
    + rewrite elem_of_union, elem_of_singleton. split.
      * intros [[->|?]|(j & Hj & He)].
        -- right. exists i. split; [left|done].
        -- by left.
        -- right. exists j. split; [by right|done].
      * intros [?|(j & Hj & He)]; [by left; right|].
        apply elem_of_cons in Hj as [->|Hj].
        -- left. left. congruence.
        -- right. eauto.
    + split.
      * intros [?|(j & Hj & He)]; [by left|]. right. exists j. split; [by right|done].
      * intros [?|(j & Hj & He)]; [by left|].
        apply elem_of_cons in Hj as [->|Hj]; [congruence|]. right. eauto.
Qed.

Lemma elem_of_block_gen instrs e :
  e ∈ block_gen instrs ↔ ∃ i, i ∈ instrs ∧ from_instruction i = Some e.
Proof. unfold block_gen. rewrite elem_of_add_expressions. set_solver. Qed.

Lemma add_expressions_union instrs out_set :
  add_expressions instrs out_set = out_set ∪ block_gen instrs.
Proof.
  apply set_eq. intros e.
  rewrite elem_of_union, elem_of_add_expressions, elem_of_block_gen. tauto.
Qed.

Lemma elem_of_all_killed_vars cfg (killed_vars : gmap nid (gset string)) x :
  x ∈ all_killed_vars cfg killed_vars
  ↔ ∃ n k, n ∈ get_nodes cfg ∧ killed_vars !! n = Some k ∧ x ∈ k.
Proof.
  unfold all_killed_vars.
  assert (∀ l acc,
    x ∈ foldl (λ acc n, match killed_vars !! n with Some k => acc ∪ k | None => acc end) acc l
    ↔ x ∈ acc ∨ ∃ n k, n ∈ l ∧ killed_vars !! n = Some k ∧ x ∈ k) as Hgen.
  { induction l as [|n l IH]; intros acc; cbn [foldl].
    - split; [by left|]. intros [?|(n & k & Hn & _)]; [done|]. by apply elem_of_nil in Hn.
    - rewrite IH. destruct (killed_vars !! n) as [k|] eqn:Hk.
      + rewrite elem_of_union. split.
        * intros [[?|?]|(m & k' & Hm & Hk' & Hx)].
          -- by left.
          -- right. exists n, k. split; [left|done].
          -- right. exists m, k'. split; [by right|done].
        * intros [?|(m & k' & Hm & Hk' & Hx)]; [by left; left|].
          apply elem_of_cons in Hm as [->|Hm].
          -- left. right. congruence.
          -- right. eauto.
      + split.
        * intros [?|(m & k' & Hm & Hk' & Hx)]; [by left|].
          right. exists m, k'. split; [by right|done].
        * intros [?|(m & k' & Hm & Hk' & Hx)]; [by left|].
          apply elem_of_cons in Hm as [->|Hm]; [congruence|]. right. eauto. }
  rewrite Hgen. setoid_rewrite elem_of_elements. set_solver.
Qed.

Lemma elem_of_intersections (s0 : gset Expression) (rest : list (gset Expression)) e :
  e ∈ foldl (λ r s, filter (λ e, e ∈ s) r) s0 rest ↔ e ∈ s0 ∧ ∀ s, s ∈ rest → e ∈ s.
Proof.
  revert s0. induction rest as [|s rest IH]; intros s0; cbn [foldl].
  - split; [|by intros [? _]]. intros ?. split; [done|]. intros s Hs. by apply elem_of_nil in Hs.
  - rewrite IH, elem_of_filter. split.
    + intros [[? ?] Hr]. split; [done|]. intros s' [->|?]%elem_of_cons; auto.
    + intros [? Hr]. split_and!; [apply Hr; left|done|]. intros s' ?. apply Hr. by right.
Qed.

(** What the meet yields: the only set, or the intersection of the sets
    less the expressions that use a variable some recorded node kills. *)
Lemma elem_of_ae_meet_operator cfg killed_vars sets e :
  e ∈ ae_meet_operator cfg killed_vars sets
  ↔ sets ≠ [] ∧ (∀ s, s ∈ sets → e ∈ s)
    ∧ (2 ≤ length sets → ¬ uses_any (all_killed_vars cfg killed_vars) e).
Proof.
  destruct sets as [|s0 [|s1 rest]]; cbn [ae_meet_operator].
  - split; [set_solver|]. by intros [? _].
  - split.
    + intros He. split_and!; [done| |simpl; lia].
      by intros s ->%list_elem_of_singleton.
    + intros (_ & Hs & _). apply Hs. left.
  - rewrite elem_of_filter, elem_of_intersections. split.
    + intros (Hk & H0 & Hr). split_and!; [done| |done].
      intros s [->|?]%elem_of_cons; auto.
    + intros (_ & Hs & Hk). split_and!.
      * apply Hk. simpl. lia.
      * apply Hs. left.
      * intros s ?. apply Hs. by right.
Qed.

(** The intersection meet does not depend on the order of the neighbour
    sets. *)
Lemma ae_meet_operator_Permutation cfg killed_vars sets sets' :
  sets ≡ₚ sets' → ae_meet_operator cfg killed_vars sets = ae_meet_operator cfg killed_vars sets'.
Proof.
  intros Hp. apply set_eq. intros e. rewrite !elem_of_ae_meet_operator.
  assert (sets ≠ [] ↔ sets' ≠ []) as ->.
  { split; intros Hne ->; apply Hne; by apply Permutation_nil_r. }
  assert (length sets = length sets') as -> by (by rewrite Hp).
  by setoid_rewrite Hp.
Qed.

Lemma sum_list_with_le {B} (f g : B → nat) l :
  (∀ x, x ∈ l → g x ≤ f x) → sum_list_with g l ≤ sum_list_with f l.
Proof.
  induction l as [|x l IH]; intros Hfg; simpl; [done|].
  pose proof (Hfg x ltac:(left)). pose proof (IH (λ y Hy, Hfg y ltac:(by right))). lia.
Qed.

Lemma sum_list_with_lt {B} (f g : B → nat) l x0 :
  (∀ x, x ∈ l → g x ≤ f x) → x0 ∈ l → g x0 < f x0 →
  sum_list_with g l < sum_list_with f l.
Proof.
  induction l as [|x l IH]; intros Hfg Hx0 Hlt; [by apply elem_of_nil in Hx0|].
  simpl. pose proof (Hfg x ltac:(left)).
  pose proof (sum_list_with_le f g l (λ y Hy, Hfg y ltac:(by right))).
  apply elem_of_cons in Hx0 as [->|Hx0]; [lia|].
  pose proof (IH (λ y Hy, Hfg y ltac:(by right)) Hx0 Hlt). lia.
Qed.

Lemma sum_list_with_slack {B} (f g : B → nat) (c : nat) l :
  (∀ x, x ∈ l → g x ≤ f x + c) → sum_list_with g l ≤ sum_list_with f l + length l * c.
Proof.
  induction l as [|x l IH]; intros Hfg; simpl; [done|].
  pose proof (Hfg x ltac:(left)). pose proof (IH (λ y Hy, Hfg y ltac:(by right))). lia.
Qed.

(** One summand of weight [W * c] goes, and each of the others, fewer
    than [W], grows by at most [c]. *)
Lemma weighted_sum_lt {B} (f g : B → nat) (c W : nat) (l : list B) (n : B) :
  NoDup l → n ∈ l → length l ≤ W → 0 < c →
  g n = 0 → f n = W * c →
  (∀ m, m ∈ l → m ≠ n → g m ≤ f m + c) →
  sum_list_with g l < sum_list_with f l.
Proof.
  intros Hnd Hn Hlen Hc Hgn Hfn Hother.
  apply elem_of_Permutation in Hn as [k Hk].
  rewrite Hk in Hnd. apply NoDup_cons in Hnd as [Hnk _].
  assert (length l = S (length k)) as Hl by (by rewrite Hk).
  rewrite !(sum_list_with_Permutation_proper _ _ _ Hk). simpl. rewrite Hgn, Hfn.
  pose proof (sum_list_with_slack f g c k) as Hs.
  assert (∀ x, x ∈ k → g x ≤ f x + c) as Hk'.
  { intros x Hx. apply Hother; [rewrite Hk; by right|]. by intros ->. }
  specialize (Hs Hk'). nia.
Qed.

Section available_expressions.
Variable cfg : ControlFlowGraph.
Hypothesis cfg_closed : closed (nodes cfg).

#[local] Abbreviation AE := AvailableExpressionsAnalysis.

Definition preds (n : nid) : gset nid := predecessors (nodes cfg !!! n).
Definition gen (n : nid) : gset Expression := block_gen (node_instructions cfg n).
Definition kill (n : nid) : gset string := block_killed (node_instructions cfg n).

(** What processing node [n] writes to [out_sets[n]]. *)
Definition produced (killed_vars : gmap nid (gset string))
    (out : gmap nid (gset Expression)) (n : nid) : gset Expression :=
  (ae_flow_function cfg killed_vars n
     (ae_meet_operator cfg killed_vars (neighbor_sets AE out (preds n)))).1.

Lemma neighbor_sets_all (out : gmap nid (gset Expression)) N e :
  (∀ s, s ∈ neighbor_sets AE out N → e ∈ s)
  ↔ N ≠ ∅ ∧ ∀ p, p ∈ N → e ∈ entry AE out p.
Proof.
  unfold neighbor_sets. case_decide as HN.
  - split.
    + intros Hs. specialize (Hs ∅). cbn in Hs. set_solver.
    + by intros [? _].
  - split.
    + intros Hs. split; [done|]. intros p Hp. apply Hs.
      apply list_elem_of_fmap. exists p. split; [done|]. by apply elem_of_elements.
    + intros [_ Hs] s (p & -> & Hp)%list_elem_of_fmap. apply Hs. by apply elem_of_elements.
Qed.

Lemma neighbor_sets_length (out : gmap nid (gset Expression)) N :
  neighbor_sets AE out N ≠ []
  ∧ (2 ≤ length (neighbor_sets AE out N) ↔ 2 ≤ size N).
Proof.
  unfold neighbor_sets. case_decide as HN.
  - subst. split; [done|]. rewrite size_empty. simpl. lia.
  - split.
    + intros Hnil. apply fmap_nil_inv in Hnil. apply elements_empty_inv in Hnil.
      apply HN. by apply leibniz_equiv.
    + by rewrite length_fmap.
Qed.

Lemma elem_of_produced killed_vars out n e :
  e ∈ produced killed_vars out n
  ↔ e ∈ gen n
    ∨ (¬ uses_any (kill n) e
       ∧ preds n ≠ ∅
       ∧ (∀ p, p ∈ preds n → e ∈ entry AE out p)
       ∧ (2 ≤ size (preds n) → ¬ uses_any (all_killed_vars cfg killed_vars) e)).
Proof.
  unfold produced, ae_flow_function. cbn [fst].
  rewrite add_expressions_union, elem_of_union, elem_of_filter, elem_of_ae_meet_operator.
  rewrite neighbor_sets_all. fold (gen n) (kill n).
  destruct (neighbor_sets_length out (preds n)) as [Hne Hlen].
  rewrite Hlen. tauto.
Qed.

Lemma process_ae s n :
  process AE cfg s n =
  {| in_sets := <[n := ae_meet_operator cfg (aux s) (neighbor_sets AE (out_sets s) (preds n))]>
                  (in_sets s);
     out_sets := <[n := produced (aux s) (out_sets s) n]> (out_sets s);
     aux := <[n := kill n]> (aux s);
     worklist := if decide (produced (aux s) (out_sets s) n = entry AE (out_sets s) n)
                 then worklist s
                 else worklist s ∪ successors (nodes cfg !!! n) |}.
Proof. reflexivity. Qed.

(** **** Where an expression can be available

    [reach e k]: the nodes that compute [e], and then those all of whose
    predecessors (there is one) are in the set, [k] times over. *)
Fixpoint reach (e : Expression) (k : nat) : gset nid :=
  match k with
  | 0 => filter (λ n, e ∈ gen n) (get_nodes cfg)
  | S k' =>
      reach e k' ∪ filter (λ n, preds n ≠ ∅ ∧ preds n ⊆ reach e k') (get_nodes cfg)
  end.

Definition depth : nat := size (get_nodes cfg).
Definition possible (e : Expression) : gset nid := reach e depth.

(** The first [k] up to [depth] with [n] in [reach e k]; [S depth] when
    there is none. *)
Definition rank (e : Expression) (n : nid) : nat :=
  match list_find (λ k, n ∈ reach e k) (seq 0 (S depth)) with
  | Some (i, _) => i
  | None => S depth
  end.

Lemma reach_nodes e k : reach e k ⊆ get_nodes cfg.
Proof. induction k as [|k IH]; simpl; set_solver. Qed.

Lemma reach_mono e k k' : k ≤ k' → reach e k ⊆ reach e k'.
Proof. induction 1 as [|k' _ IH]; simpl; set_solver. Qed.

Lemma reach_fixed e k : reach e (S k) = reach e k → reach e (S (S k)) = reach e (S k).
Proof.
  intros Heq. apply set_eq. intros x. split; [|apply reach_mono; lia].
  change (reach e (S (S k))) with
    (reach e (S k) ∪ filter (λ n, preds n ≠ ∅ ∧ preds n ⊆ reach e (S k)) (get_nodes cfg)).
  intros [?|Hf]%elem_of_union; [done|].
  apply elem_of_filter in Hf as [[Hne Hsub] Hx]. rewrite Heq in Hsub.
  cbn [reach]. apply elem_of_union. right. by apply elem_of_filter.
Qed.

Lemma reach_grows e k : reach e (S k) = reach e k ∨ S k ≤ size (reach e (S k)).
Proof.
  induction k as [|k IH].
  - destruct (decide (reach e 1 = reach e 0)) as [?|Hne]; [by left|right].
    assert (reach e 0 ⊂ reach e 1) as Hsub.
    { split; [apply reach_mono; lia|]. intros Hsub. apply Hne.
      apply set_eq. intros x. split; [apply Hsub|]. apply reach_mono. lia. }
    apply subset_size in Hsub. lia.
  - destruct IH as [Heq|Hsz]; [left; by apply reach_fixed|].
    destruct (decide (reach e (S (S k)) = reach e (S k))) as [?|Hne]; [by left|right].
    assert (reach e (S k) ⊂ reach e (S (S k))) as Hsub.
    { split; [apply reach_mono; lia|]. intros Hsub. apply Hne.
      apply set_eq. intros x. split; [apply Hsub|]. apply reach_mono. lia. }
    apply subset_size in Hsub. lia.
Qed.

(** After [depth] rounds nothing is added. *)
Lemma reach_stable e : reach e (S depth) = possible e.
Proof.
  destruct (reach_grows e depth) as [?|Hsz]; [done|].
  pose proof (subseteq_size _ _ (reach_nodes e (S depth))). unfold depth in *. lia.
Qed.

Lemma possible_gen e n : n ∈ get_nodes cfg → e ∈ gen n → n ∈ possible e.
Proof.
  intros Hn He. apply (reach_mono e 0 depth); [lia|]. simpl. by apply elem_of_filter.
Qed.

Lemma possible_closed e n :
  n ∈ get_nodes cfg → preds n ≠ ∅ → preds n ⊆ possible e → n ∈ possible e.
Proof.
  intros Hn Hne Hsub. rewrite <-reach_stable. simpl. apply elem_of_union. right.
  by apply elem_of_filter.
Qed.

Lemma rank_possible e n :
  n ∈ possible e →
  rank e n ≤ depth ∧ n ∈ reach e (rank e n) ∧ ∀ j, j < rank e n → n ∉ reach e j.
Proof.
  intros Hn. unfold rank.
  destruct (list_find _ (seq 0 (S depth))) as [[i k]|] eqn:Hfind.
  - apply list_find_Some in Hfind as (Hi & Hk & Hmin).
    apply lookup_seq in Hi as [Heq Hi]. simpl in Heq. subst k.
    split_and!; [lia|done|].
    intros j Hj. apply (Hmin j j); [|done]. apply lookup_seq. lia.
  - exfalso. apply list_find_None in Hfind. rewrite Forall_forall in Hfind.
    apply (Hfind depth); [|done]. apply elem_of_seq. lia.
Qed.

Lemma rank_le e n k : n ∈ reach e k → k ≤ depth → rank e n ≤ k.
Proof.
  intros Hn Hk.
  assert (Hp : n ∈ possible e) by (by apply (reach_mono e k depth)).
  destruct (rank_possible e n Hp) as (_ & _ & Hmin).
  destruct (decide (rank e n ≤ k)) as [|Hgt]; [done|].
  exfalso. apply (Hmin k); [lia|done].
Qed.

(** A node where [e] can be available without being computed has it
    from predecessors of smaller rank. *)
Lemma rank_preds e n p :
  n ∈ possible e → e ∉ gen n → p ∈ preds n → p ∈ possible e ∧ rank e p < rank e n.
Proof.
  intros Hn Hgen Hp. destruct (rank_possible e n Hn) as (Hle & Hin & Hmin).
  destruct (rank e n) as [|r] eqn:Hr.
  - simpl in Hin. apply elem_of_filter in Hin as [? _]. done.
  - simpl in Hin. apply elem_of_union in Hin as [Hin|Hin].
    + exfalso. apply (Hmin r); [lia|done].
    + apply elem_of_filter in Hin as [[_ Hsub] _].
      assert (Hpr : p ∈ reach e r) by (by apply Hsub).
      split; [apply (reach_mono e r depth); [lia|done]|].
      pose proof (rank_le e p r Hpr ltac:(lia)). lia.
Qed.

(** **** What the loop keeps true *)

Record ae_inv (s : state (gset Expression) (gmap nid (gset string))) : Prop := mkAeInv {
  ae_defined : defined cfg s;
  ae_recorded : ∀ n k, aux s !! n = Some k → n ∈ get_nodes cfg ∧ k = kill n;
  ae_possible : ∀ n e, e ∈ entry AE (out_sets s) n → n ∈ possible e
}.

Lemma entry_insert_ae (out : gmap nid (gset Expression)) n d m :
  entry AE (<[n := d]> out) m = if decide (m = n) then d else entry AE out m.
Proof.
  unfold entry. case_decide as Hm.
  - subst. by rewrite lookup_insert_eq.
  - by rewrite lookup_insert_ne.
Qed.

Lemma produced_possible killed_vars out n e :
  n ∈ get_nodes cfg →
  (∀ m e, e ∈ entry AE out m → m ∈ possible e) →
  e ∈ produced killed_vars out n → n ∈ possible e.
Proof.
  intros Hn Hout [Hg|(_ & Hne & Hall & _)]%elem_of_produced.
  - by apply possible_gen.
  - apply possible_closed; [done|done|]. intros p Hp. by apply Hout, Hall.
Qed.

Lemma ae_inv_initialize : ae_inv (initialize AE cfg).
Proof.
  split.
  - apply defined_initialize.
  - intros n k. simpl. by rewrite lookup_empty.
  - intros n e. unfold entry. simpl. rewrite lookup_gset_to_gmap.
    destruct (guard _); simpl; set_solver.
Qed.

Lemma ae_inv_step s s' : ae_inv s → step AE cfg s s' → ae_inv s'.
Proof.
  intros [Hdef Hrec Hposs] Hstep.
  pose proof (defined_step AE cfg cfg_closed s s' Hdef Hstep) as Hdef'.
  destruct Hstep as (n & Hn & ->).
  assert (Hin : n ∈ get_nodes cfg) by (by apply (defined_worklist _ _ Hdef)).
  split; [done| |].
  - intros m k. rewrite process_ae. cbn [aux pop].
    destruct (decide (m = n)) as [->|Hne].
    + rewrite lookup_insert_eq. by intros [= <-].
    + rewrite lookup_insert_ne by done. apply Hrec.
  - intros m e. rewrite process_ae. cbn [out_sets pop]. rewrite entry_insert_ae.
    case_decide as Hm; [subst m|apply Hposs].
    by apply produced_possible.
Qed.

(** Every expression some block computes. *)
Definition all_expressions : gset Expression := ⋃ (gen <$> elements (get_nodes cfg)).

Lemma possible_all_expressions e n : n ∈ possible e → e ∈ all_expressions.
Proof.
  intros Hn. destruct (decide (e ∈ all_expressions)) as [|Hne]; [done|exfalso].
  assert (∀ k, reach e k = ∅) as Hempty.
  { induction k as [|k IH]; simpl.
    - apply set_eq. intros m. rewrite elem_of_filter. split; [|set_solver].
      intros [Hg Hm]. exfalso. apply Hne. apply elem_of_union_list.
      exists (gen m). split; [|done]. apply list_elem_of_fmap. exists m.
      split; [done|]. by apply elem_of_elements.
    - rewrite IH. apply set_eq. intros m. rewrite elem_of_union, elem_of_filter.
      split; [|set_solver]. intros [?|[[H1 H2] _]]; [set_solver|]. exfalso. apply H1.
      set_solver. }
  unfold possible in Hn. rewrite Hempty in Hn. set_solver.
Qed.

(** **** The measure

    An expression is stale at a node when the entry of the node and
    what processing the node would write disagree on it. *)
Definition stale (killed_vars : gmap nid (gset string)) (out : gmap nid (gset Expression))
    (n : nid) : gset Expression :=
  (entry AE out n ∖ produced killed_vars out n)
  ∪ (produced killed_vars out n ∖ entry AE out n).

Lemma elem_of_stale killed_vars out n e :
  e ∈ stale killed_vars out n
  ↔ ¬ (e ∈ entry AE out n ↔ e ∈ produced killed_vars out n).
Proof.
  unfold stale. rewrite elem_of_union, !elem_of_difference.
  destruct (decide (e ∈ entry AE out n)), (decide (e ∈ produced killed_vars out n)); tauto.
Qed.

Definition weight (e : Expression) (m : nid) : nat := S depth ^ (S depth - rank e m).

Definition debt_of (killed_vars : gmap nid (gset string)) (out : gmap nid (gset Expression))
    (e : Expression) : nat :=
  sum_list_with (λ m, if decide (e ∈ stale killed_vars out m) then weight e m else 0)
                (elements (get_nodes cfg)).

Definition debt (s : state (gset Expression) (gmap nid (gset string))) : nat :=
  sum_list_with (debt_of (aux s) (out_sets s)) (elements all_expressions).

Definition unrecorded (s : state (gset Expression) (gmap nid (gset string))) : nat :=
  size (get_nodes cfg ∖ dom (aux s)).

(** Processing [n] with the recorded kills unchanged. *)
Section recorded_step.
Variable kv : gmap nid (gset string).
Variable out : gmap nid (gset Expression).
Variable n : nid.
Hypothesis n_node : n ∈ get_nodes cfg.
Hypothesis out_possible : ∀ m e, e ∈ entry AE out m → m ∈ possible e.

Let new := produced kv out n.
Let out' := <[n := new]> out.

Lemma out'_possible m e : e ∈ entry AE out' m → m ∈ possible e.
Proof.
  unfold out'. rewrite entry_insert_ae. case_decide as Hm; [subst m|apply out_possible].
  by apply produced_possible.
Qed.

Lemma produced_unflipped e m :
  e ∉ stale kv out n → (e ∈ produced kv out' m ↔ e ∈ produced kv out m).
Proof.
  rewrite elem_of_stale. intros Hflip. rewrite !elem_of_produced.
  assert (∀ p, e ∈ entry AE out' p ↔ e ∈ entry AE out p) as Hentry.
  { intros p. unfold out'. rewrite entry_insert_ae. case_decide; [subst p|done].
    fold new in Hflip.
    destruct (decide (e ∈ entry AE out n)), (decide (e ∈ new)); tauto. }
  by setoid_rewrite Hentry.
Qed.

Lemma stale_unflipped e m :
  e ∉ stale kv out n → (e ∈ stale kv out' m ↔ e ∈ stale kv out m).
Proof.
  intros Hflip. rewrite !elem_of_stale, (produced_unflipped e m Hflip).
  unfold out'. rewrite entry_insert_ae. case_decide; [subst m|done].
  rewrite elem_of_stale in Hflip. fold new in Hflip |- *.
  destruct (decide (e ∈ entry AE out n)), (decide (e ∈ new)); tauto.
Qed.

Lemma stale_at_processed e : e ∉ stale kv out' n.
Proof.
  rewrite elem_of_stale. intros Hst. apply Hst.
  unfold out' at 1. rewrite entry_insert_ae, decide_True by done.
  unfold new. rewrite !elem_of_produced.
  destruct (decide (e ∈ gen n)) as [?|Hgen]; [tauto|].
  destruct (decide (n ∈ preds n)) as [Hself|Hself].
  - split.
    + intros [?|(H1 & H2 & H3 & H4)]; [done|]. right. split_and!; [done|done| |done].
      intros p Hp. unfold out'. rewrite entry_insert_ae. case_decide; [subst p|auto].
      apply elem_of_produced. right. by split_and!.
    + intros [?|(H1 & H2 & H3 & H4)]; [done|].
      specialize (H3 n Hself). unfold out' in H3.
      rewrite entry_insert_ae, decide_True in H3 by done.
      by apply elem_of_produced in H3.
  - assert (∀ p, p ∈ preds n → (e ∈ entry AE out' p ↔ e ∈ entry AE out p)) as Hentry.
    { intros p Hp. unfold out'. rewrite entry_insert_ae, decide_False; [done|].
      by intros ->. }
    split; (intros [?|(H1 & H2 & H3 & H4)]; [by left|right]);
      (split_and!; [done|done| |done]); intros p Hp; apply Hentry; auto.
Qed.

Lemma stale_elsewhere e m :
  m ∈ get_nodes cfg → m ≠ n → e ∈ stale kv out' m →
  e ∈ stale kv out m ∨ (e ∈ stale kv out n ∧ rank e n < rank e m).
Proof.
  intros Hm Hne Hst.
  destruct (decide (e ∈ stale kv out n)) as [Hflip|Hflip];
    [|left; by apply (stale_unflipped e m Hflip)].
  destruct (decide (e ∈ stale kv out m)) as [|Hold]; [by left|right].
  split; [done|].
  assert (Hentry : entry AE out' m = entry AE out m).
  { unfold out'. by rewrite entry_insert_ae, decide_False. }
  assert (Hposs : m ∈ possible e).
  { apply elem_of_stale in Hst.
    destruct (decide (e ∈ entry AE out' m)) as [Hin|Hin]; [by apply out'_possible|].
    apply (produced_possible kv out'); [done|apply out'_possible|].
    destruct (decide (e ∈ produced kv out' m)); [done|exfalso; tauto]. }
  assert (Hdiff : ¬ (e ∈ produced kv out' m ↔ e ∈ produced kv out m)).
  { apply elem_of_stale in Hst. rewrite elem_of_stale in Hold. rewrite Hentry in Hst.
    destruct (decide (e ∈ entry AE out m)), (decide (e ∈ produced kv out m)),
      (decide (e ∈ produced kv out' m)); tauto. }
  assert (Hgen : e ∉ gen m).
  { intros Hg. apply Hdiff. rewrite !elem_of_produced. tauto. }
  destruct (decide (n ∈ preds m)) as [Hp|Hp]; [by apply rank_preds|].
  exfalso. apply Hdiff. rewrite !elem_of_produced.
  assert (∀ p, p ∈ preds m → (e ∈ entry AE out' p ↔ e ∈ entry AE out p)) as Hsame.
  { intros p Hpm. unfold out'. rewrite entry_insert_ae, decide_False; [done|].
    by intros ->. }
  split; (intros [?|(H1 & H2 & H3 & H4)]; [by left|right]);
    (split_and!; [done|done| |done]); intros p Hpm; apply Hsame; auto.
Qed.
End recorded_step.

Lemma stale_possible kv out n e :
  n ∈ get_nodes cfg → (∀ m e, e ∈ entry AE out m → m ∈ possible e) →
  e ∈ stale kv out n → n ∈ possible e.
Proof.
  intros Hn Hout Hst. unfold stale in Hst.
  apply elem_of_union in Hst as [[? _]%elem_of_difference|[? _]%elem_of_difference].
  - by apply Hout.
  - by apply (produced_possible kv out).
Qed.

Lemma debt_of_step kv out n e :
  n ∈ get_nodes cfg → (∀ m e, e ∈ entry AE out m → m ∈ possible e) →
  let out' := <[n := produced kv out n]> out in
  debt_of kv out' e ≤ debt_of kv out e
  ∧ (e ∈ stale kv out n → debt_of kv out' e < debt_of kv out e).
Proof.
  intros Hn Hout out'. unfold debt_of.
  destruct (decide (e ∈ stale kv out n)) as [Hflip|Hflip].
  - enough (sum_list_with (λ m, if decide (e ∈ stale kv out' m) then weight e m else 0)
              (elements (get_nodes cfg))
            < sum_list_with (λ m, if decide (e ∈ stale kv out m) then weight e m else 0)
                (elements (get_nodes cfg))) by (split; [lia|done]).
    pose proof (stale_possible kv out n e Hn Hout Hflip) as Hposs.
    destruct (rank_possible e n Hposs) as (Hrank & _ & _).
    apply (weighted_sum_lt _ _ (S depth ^ (depth - rank e n)) (S depth) _ n).
    + apply NoDup_elements.
    + by apply elem_of_elements.
    + unfold depth, size, set_size. simpl. lia.
    + apply Nat.neq_0_lt_0, Nat.pow_nonzero. lia.
    + rewrite decide_False; [done|]. by apply stale_at_processed.
    + rewrite decide_True by done. unfold weight.
      replace (S depth - rank e n) with (S (depth - rank e n)) by lia.
      by rewrite Nat.pow_succ_r'.
    + intros m Hm%elem_of_elements Hne. case_decide as Hst; [|lia].
      destruct (stale_elsewhere kv out n Hn Hout e m Hm Hne Hst) as [Hold|[_ Hlt]].
      * rewrite decide_True by done. lia.
      * enough (weight e m ≤ S depth ^ (depth - rank e n)) by lia.
        unfold weight. apply Nat.pow_le_mono_r; lia.
  - split; [|done]. apply Nat.eq_le_incl, sum_list_with_ext_in.
    intros m _. pose proof (stale_unflipped kv out n e m Hflip) as Hiff.
    fold out' in Hiff. repeat case_decide; tauto.
Qed.

(** A step lowers, in the lexicographic order, the number of nodes
    never processed, the debt, the size of the worklist. *)
Lemma ae_step_decreases s s' :
  ae_inv s → step AE cfg s s' →
  unrecorded s' < unrecorded s
  ∨ (unrecorded s' ≤ unrecorded s ∧ debt s' < debt s)
  ∨ (unrecorded s' ≤ unrecorded s ∧ debt s' ≤ debt s
     ∧ size (worklist s') < size (worklist s)).
Proof.
  intros Hinv Hstep. pose proof (ae_inv_step s s' Hinv Hstep) as Hinv'.
  destruct Hinv as [Hdef Hrec Hposs]. destruct Hstep as (n & Hn & ->).
  assert (Hin : n ∈ get_nodes cfg) by (by apply (defined_worklist _ _ Hdef)).
  rewrite process_ae in *. unfold unrecorded, debt. cbn [aux out_sets worklist pop] in *.
  destruct (aux s !! n) as [k|] eqn:Hk.
  - destruct (Hrec n k Hk) as [_ ->].
    rewrite (insert_id (aux s) n (kill n)) by done.
    destruct (decide (produced (aux s) (out_sets s) n = entry AE (out_sets s) n))
      as [Heq|Hne].
    + right. right.
      assert (<[n := produced (aux s) (out_sets s) n]> (out_sets s) = out_sets s) as ->.
      { apply insert_id. rewrite Heq. unfold entry.
        assert (is_Some (out_sets s !! n)) as [x Hx].
        { apply elem_of_dom. by rewrite (defined_out _ _ Hdef). }
        by rewrite Hx. }
      split_and!; [done|done|]. apply subset_size. set_solver.
    + right. left. split; [done|].
      assert (∃ e, e ∈ stale (aux s) (out_sets s) n) as [e He].
      { apply set_choose_L. intros Hempty. apply Hne. apply set_eq. intros e.
        assert (e ∉ stale (aux s) (out_sets s) n) as Hst by set_solver.
        rewrite elem_of_stale in Hst.
        destruct (decide (e ∈ entry AE (out_sets s) n)),
          (decide (e ∈ produced (aux s) (out_sets s) n)); tauto. }
      apply (sum_list_with_lt _ _ _ e).
      * intros e' _. by apply debt_of_step.
      * apply elem_of_elements. apply (possible_all_expressions e n).
        by apply (stale_possible (aux s) (out_sets s)).
      * by apply debt_of_step.
  - left. apply subset_size. rewrite dom_insert_L.
    apply not_elem_of_dom in Hk. set_solver.
Qed.

Lemma AvailableExpressions_sn_closed : sn (step AE cfg) (initialize AE cfg).
Proof.
  apply (sn_lexicographic (step AE cfg) ae_inv unrecorded debt (λ s, size (worklist s))).
  - intros s s' Hs Hstep. split; [by eapply ae_inv_step|by apply ae_step_decreases].
  - apply ae_inv_initialize.
Qed.
End available_expressions.

End AvailableExpressionsFacts.

Module AnalysisFacts.
Import IR ControlFlow DataFlow EngineFacts.

(** C9. On the graph built from any function, [analyze] of each of the
    four analyses completes, whatever node the worklist pops: no run of
    the loop is infinite, every state on the way has an [in_sets] and an
    [out_sets] entry for every node, and a state with an empty worklist is
    reached. *)
Theorem analyze_completes f cfg :
  build_cfg f = Ok cfg →
  completes ReachingDefinitionsAnalysis cfg
  ∧ completes LiveVariableAnalysis cfg
  ∧ completes AvailableExpressionsAnalysis cfg
  ∧ completes ConstantPropagationAnalysis cfg.
Proof.
  intros Hbuild. pose proof (build_cfg_closed f cfg Hbuild) as Hc.
  split_and!.
  - apply completes_of_sn; [exact Hc|]. exact (UnionAnalyses.ReachingDefinitions_sn cfg Hc).
  - apply completes_of_sn; [exact Hc|]. exact (UnionAnalyses.LiveVariable_sn cfg Hc).
  - apply completes_of_sn; [exact Hc|].
    exact (AvailableExpressionsFacts.AvailableExpressions_sn_closed cfg Hc).
  - apply completes_of_sn; [exact Hc|].
    exact (ConstantPropagationFacts.ConstantPropagation_sn cfg Hc).
Qed.

Lemma S3_build_cfg : build_cfg S3.function = Ok S3.cfg.
Proof. by vm_compute. Qed.

Lemma analyze_completes_witness :
  completes ReachingDefinitionsAnalysis S3.cfg
  ∧ completes LiveVariableAnalysis S3.cfg
  ∧ completes AvailableExpressionsAnalysis S3.cfg
  ∧ completes ConstantPropagationAnalysis S3.cfg.
Proof. apply (analyze_completes S3.function S3.cfg). by vm_compute. Defined.

(** A run for a given order of pops is a run of the loop. *)
Lemma run_schedule_rtc {Data Aux : Type} `{EqDecision Data} (A : Analysis Data Aux) cfg
    sched s s' :
  run_schedule A cfg sched s = Some s' → rtc (step A cfg) s s'.
Proof.
  revert s. induction sched as [|n sched IH]; intros s; simpl.
  - by intros [= <-].
  - case_decide as Hn; [|done]. intros Hrun.
    eapply rtc_l; [|by apply IH]. by exists n.
Qed.

Section S3_facts.
Import AvailableExpressionsFacts S3.
#[local] Abbreviation AE := AvailableExpressionsAnalysis.

Lemma S3_closed : closed (nodes cfg).
Proof. apply (build_cfg_closed function), S3_build_cfg. Qed.

Lemma S3_nodes n : n ∈ get_nodes cfg → n = 0 ∨ n = 1 ∨ n = 2 ∨ n = 3.
Proof.
  assert (get_nodes cfg = {[0; 1; 2; 3]}) as -> by (by vm_compute). set_solver.
Qed.

Lemma block_gen_cons i instrs :
  block_gen (i :: instrs) =
  match from_instruction i with Some e => {[e]} | None => ∅ end ∪ block_gen instrs.
Proof.
  apply set_eq. intros e. rewrite elem_of_union, !elem_of_block_gen. split.
  - intros (j & [->|Hj]%elem_of_cons & He).
    + left. rewrite He. set_solver.
    + right. eauto.
  - intros [He|(j & Hj & He)].
    + exists i. split; [left|]. destruct (from_instruction i); set_solver.
    + exists j. split; [by right|done].
Qed.

Lemma S3_gen0 : gen cfg 0 = ∅.
Proof.
  unfold gen. assert (node_instructions cfg 0 = [inst_x; inst_y]) as -> by (by vm_compute).
  rewrite !block_gen_cons.
  assert (from_instruction inst_x = None) as -> by (by vm_compute).
  assert (from_instruction inst_y = None) as -> by (by vm_compute).
  unfold block_gen. simpl. set_solver.
Qed.

Lemma S3_gen1 : gen cfg 1 = {[add_expr; mul_expr]}.
Proof.
  unfold gen. assert (node_instructions cfg 1 = [inst_a; inst_b]) as -> by (by vm_compute).
  rewrite !block_gen_cons.
  assert (from_instruction inst_a = Some add_expr) as -> by (by vm_compute).
  assert (from_instruction inst_b = Some mul_expr) as -> by (by vm_compute).
  unfold block_gen. simpl. set_solver.
Qed.

Lemma S3_gen2 : gen cfg 2 = {[add_expr]}.
Proof.
  unfold gen. assert (node_instructions cfg 2 = [inst_x2; inst_c]) as -> by (by vm_compute).
  rewrite !block_gen_cons.
  assert (from_instruction inst_x2 = None) as -> by (by vm_compute).
  assert (from_instruction inst_c = Some add_expr) as -> by (by vm_compute).
  unfold block_gen. simpl. set_solver.
Qed.

Lemma S3_gen3 : gen cfg 3 = ∅.
Proof.
  unfold gen. by assert (node_instructions cfg 3 = []) as -> by (by vm_compute).
Qed.

Lemma S3_produced_entry kv out : produced cfg kv out 0 = ∅.
Proof.
  apply set_eq. intros e. rewrite (elem_of_produced cfg S3_closed).
  rewrite S3_gen0.
  assert (preds cfg 0 = ∅) as -> by (by vm_compute). set_solver.
Qed.

Lemma S3_produced_block1 kv out :
  DataFlow.entry AE out 0 = ∅ → produced cfg kv out 1 = {[add_expr; mul_expr]}.
Proof.
  intros H0. apply set_eq. intros e. rewrite (elem_of_produced cfg S3_closed).
  rewrite S3_gen1.
  assert (preds cfg 1 = {[0]}) as -> by (by vm_compute).
  split; [|by left]. intros [?|(_ & _ & Hall & _)]; [done|].
  specialize (Hall 0). rewrite H0 in Hall. set_solver.
Qed.

Lemma S3_produced_block2 kv out :
  DataFlow.entry AE out 0 = ∅ → produced cfg kv out 2 = {[add_expr]}.
Proof.
  intros H0. apply set_eq. intros e. rewrite (elem_of_produced cfg S3_closed).
  rewrite S3_gen2.
  assert (preds cfg 2 = {[0]}) as -> by (by vm_compute).
  split; [|by left]. intros [?|(_ & _ & Hall & _)]; [done|].
  specialize (Hall 0). rewrite H0 in Hall. set_solver.
Qed.

Lemma S3_add_killed kv :
  kv !! 2 = Some (kill cfg 2) → uses_any (all_killed_vars cfg kv) add_expr.
Proof.
  intros H2. unfold uses_any. apply Exists_exists. exists "x"%string.
  split; [by left|]. apply elem_of_all_killed_vars.
  exists 2, (kill cfg 2). split_and!; [by vm_compute|done|by vm_compute].
Qed.

Lemma S3_produced_exit kv out :
  DataFlow.entry AE out 1 = ∅ ∨ DataFlow.entry AE out 2 = ∅
  ∨ (DataFlow.entry AE out 2 = {[add_expr]} ∧ kv !! 2 = Some (kill cfg 2)) →
  produced cfg kv out 3 = ∅.
Proof.
  intros Hcase. apply set_eq. intros e. rewrite (elem_of_produced cfg S3_closed).
  rewrite S3_gen3.
  assert (preds cfg 3 = {[1; 2]}) as -> by (by vm_compute).
  split; [|set_solver]. intros [?|(_ & _ & Hall & Hkill)]; [done|].
  pose proof (Hall 1 ltac:(set_solver)) as H1.
  pose proof (Hall 2 ltac:(set_solver)) as H2.
  destruct Hcase as [Heq|[Heq|[Heq Hkv]]].
  - rewrite Heq in H1. set_solver.
  - rewrite Heq in H2. set_solver.
  - rewrite Heq in H2. apply elem_of_singleton in H2 as ->.
    exfalso. apply Hkill; [by vm_compute|]. by apply S3_add_killed.
Qed.

(** What every state of a run on the diamond satisfies. *)
Record S3_inv (s : state (gset Expression) (gmap nid (gset string))) : Prop := mkS3Inv {
  S3_ae : ae_inv cfg s;
  S3_out0 : DataFlow.entry AE (out_sets s) 0 = ∅;
  S3_out1 : 1 ∈ worklist s ∧ DataFlow.entry AE (out_sets s) 1 = ∅
            ∨ DataFlow.entry AE (out_sets s) 1 = {[add_expr; mul_expr]};
  S3_out2 : 2 ∈ worklist s ∧ DataFlow.entry AE (out_sets s) 2 = ∅
            ∨ DataFlow.entry AE (out_sets s) 2 = {[add_expr]}
              ∧ aux s !! 2 = Some (kill cfg 2);
  S3_out3 : DataFlow.entry AE (out_sets s) 3 = ∅
}.

Lemma S3_inv_initialize : S3_inv (initialize AE cfg).
Proof.
  split; [apply (ae_inv_initialize cfg S3_closed)| | | |]; try by vm_compute.
  - left. split; by vm_compute.
  - left. split; by vm_compute.
Qed.

Lemma S3_inv_step s s' : S3_inv s → step AE cfg s s' → S3_inv s'.
Proof.
  intros [Hae H0 H1 H2 H3] Hstep.
  pose proof (ae_inv_step cfg S3_closed s s' Hae Hstep) as Hae'.
  destruct Hstep as (n & Hn & ->).
  assert (Hin : n ∈ get_nodes cfg).
  { by apply (defined_worklist _ _ (ae_defined _ _ Hae)). }
  rewrite process_ae in *. cbn [pop aux out_sets worklist in_sets] in *.
  assert (H2' : DataFlow.entry AE (out_sets s) 2 = ∅
                ∨ DataFlow.entry AE (out_sets s) 2 = {[add_expr]}
                  ∧ aux s !! 2 = Some (kill cfg 2)) by tauto.
  apply S3_nodes in Hin as [-> | [-> | [-> | ->]]].
  - split; [done|..]; cbn [out_sets aux worklist]; rewrite ?entry_insert_ae; simpl.
    + apply S3_produced_entry.
    + rewrite S3_produced_entry, H0. rewrite decide_True by done.
      destruct H1 as [[? ?]|?]; [left|right]; [split; [set_solver|done]|done].
    + rewrite S3_produced_entry, H0. rewrite decide_True by done.
      rewrite lookup_insert_ne by done.
      destruct H2 as [[? ?]|?]; [left|right]; [split; [set_solver|done]|done].
    + done.
  - split; [done|..]; cbn [out_sets aux worklist]; rewrite ?entry_insert_ae; simpl.
    + done.
    + right. by apply S3_produced_block1.
    + rewrite lookup_insert_ne by done.
      destruct H2 as [[? ?]|?]; [left|right]; [|done].
      split; [|done]. case_decide; set_solver.
    + done.
  - split; [done|..]; cbn [out_sets aux worklist]; rewrite ?entry_insert_ae; simpl.
    + done.
    + destruct H1 as [[? ?]|?]; [left|right]; [|done].
      split; [|done]. case_decide; set_solver.
    + right. rewrite lookup_insert_eq. split; [by apply S3_produced_block2|done].
    + done.
  - assert (Hp : produced cfg (aux s) (out_sets s) 3 = ∅).
    { apply S3_produced_exit. tauto. }
    split; [done|..]; cbn [out_sets aux worklist]; rewrite ?entry_insert_ae; simpl.
    + done.
    + rewrite Hp, H3. rewrite decide_True by done.
      destruct H1 as [[? ?]|?]; [left|right]; [split; [set_solver|done]|done].
    + rewrite Hp, H3. rewrite decide_True by done.
      rewrite lookup_insert_ne by done.
      destruct H2 as [[? ?]|?]; [left|right]; [split; [set_solver|done]|done].
    + done.
Qed.

Lemma S3_inv_rtc s : rtc (step AE cfg) (initialize AE cfg) s → S3_inv s.
Proof.
  revert s. apply (rtc_ind_r (λ s, S3_inv s)); [apply S3_inv_initialize|].
  intros y z _ Hstep Hy. by eapply S3_inv_step.
Qed.

(** C7. On the diamond of S3, [analyze] of the available-expressions
    analysis completes whatever node the worklist pops, and every run
    ends with out(entry) = ∅, out(b1) = {add(x,y), multiply(x,y)},
    out(b2) = {add(x,y)} and out(exit) = ∅: the intersection at the
    merge is {add(x,y)}, which uses [x], a variable in the union of the
    recorded kills. *)
Theorem S3_available_expressions :
  build_cfg function = Ok cfg
  ∧ completes AE cfg
  ∧ ∀ s, rtc (step AE cfg) (initialize AE cfg) s → worklist s = ∅ →
      out_sets s !! entry_block = Some ∅
      ∧ out_sets s !! block1 = Some {[add_expr; mul_expr]}
      ∧ out_sets s !! block2 = Some {[add_expr]}
      ∧ out_sets s !! exit_block = Some ∅
      ∧ DataFlow.entry AE (out_sets s) block1 ∩ DataFlow.entry AE (out_sets s) block2
        = {[add_expr]}
      ∧ uses_any (all_killed_vars cfg (aux s)) add_expr.
Proof.
  split_and!.
  - exact S3_build_cfg.
  - apply completes_of_sn; [exact S3_closed|].
    exact (AvailableExpressions_sn_closed cfg S3_closed).
  - intros s Hrtc Hwl. destruct (S3_inv_rtc s Hrtc) as [Hae H0 H1 H2 H3].
    rewrite Hwl in H1, H2.
    destruct H1 as [[Hin _]|H1]; [set_solver|].
    destruct H2 as [[Hin _]|[H2 Hkv]]; [set_solver|].
    assert (∀ n, n ∈ get_nodes cfg →
                 out_sets s !! n = Some (DataFlow.entry AE (out_sets s) n)) as Hentry.
    { intros n Hn. rewrite <-(defined_out _ _ (ae_defined _ _ Hae)) in Hn.
      apply elem_of_dom in Hn as [x Hx]. unfold DataFlow.entry. by rewrite Hx. }
    split_and!.
    + rewrite Hentry by (by vm_compute). f_equal. exact H0.
    + rewrite Hentry by (by vm_compute). f_equal. exact H1.
    + rewrite Hentry by (by vm_compute). f_equal. exact H2.
    + rewrite Hentry by (by vm_compute). f_equal. exact H3.
    + unfold block1, block2. rewrite H1, H2. by vm_compute.
    + by apply S3_add_killed.
Qed.

Lemma S3_available_expressions_witness :
  ∃ s, run_schedule AE cfg [entry_block; block1; block2; exit_block] (initialize AE cfg)
         = Some s
       ∧ out_sets s !! exit_block = Some ∅.
Proof.
  assert (worklist <$> run_schedule AE cfg [entry_block; block1; block2; exit_block]
                         (initialize AE cfg) = Some ∅) as Hw by (by vm_compute).
  destruct (run_schedule AE cfg [entry_block; block1; block2; exit_block]
              (initialize AE cfg)) as [s|] eqn:Hrun; [|done].
  exists s. split; [done|].
  destruct S3_available_expressions as (_ & _ & Hfinal).
  apply Hfinal.
  - by apply run_schedule_rtc in Hrun.
  - by injection Hw.
Defined.
End S3_facts.

End AnalysisFacts.
